(** * ZappierV2: peer connection and messaging protocol layer

    A shallow embedding of the coordination relay ([server/routes.ts]), the
    client transport manager (class [WebRTCManager], the second part of
    [client/src/lib/notifications.ts]), the chat window's file-transfer
    paths and text messages (component [ChatWindow], the third part of
    [client/src/components/AudioCallWindow.tsx]), the first-contact
    handshake, the status bookkeeping and the presence callback of the
    provider ([client/src/lib/peer-connection-context.tsx]), and the two
    forms that add a contact by hand
    ([client/src/components/AddContactDialog.tsx],
    [client/src/pages/QRScanner.tsx]), followed by the properties
    established about them.

    Conventions.  Strings are sequences of code units below 256.  JavaScript
    [Map]s that the code iterates over are insertion-ordered association
    lists; maps that are only read and written by key are [gmap]s.  What the
    environment decides (socket ready states, the clock, what the transport
    library answers) is an input of the function that observes it. *)

From Stdlib Require Import ZArith Ascii String.
From stdpp Require Import gmap strings list sorting pretty.

(* ===================================================================== *)
(** * JavaScript values and containers                                    *)
(* ===================================================================== *)

Module Js.

(** The values a field of an untyped ([any]) payload can hold, as far as
    the code tells them apart: by [typeof], by truthiness and by [===]. *)
Inductive value :=
| VUndefined
| VNull
| VBool (b : bool)
| VNumber (n : Z)
| VString (s : string)
| VObject.

(** ToBoolean. *)
Definition truthy (v : value) : bool :=
  match v with
  | VUndefined | VNull => false
  | VBool b => b
  | VNumber n => negb (n =? 0)%Z
  | VString s => negb (String.eqb s "")
  | VObject => true
  end.

(** [v !== s] for a string [s]. *)
Definition strict_ne_string (v : value) (s : string) : bool :=
  match v with
  | VString t => negb (String.eqb t s)
  | _ => true
  end.

(** ToBoolean of a string. *)
Definition truthy_string (s : string) : bool := negb (String.eqb s "").

(** White space that [String.prototype.trim] strips, among the code units
    below 256: TAB, LF, VT, FF, CR, SP and NBSP. *)
Definition is_white (c : ascii) : bool :=
  let n := nat_of_ascii c in
  ((9 <=? n) && (n <=? 13) || (n =? 32) || (n =? 160))%nat.

Fixpoint trim_start (s : string) : string :=
  match s with
  | EmptyString => EmptyString
  | String c r => if is_white c then trim_start r else s
  end.

Definition trim (s : string) : string :=
  String.rev (trim_start (String.rev (trim_start s))).

(** An insertion-ordered [Map<string, V>]. *)
Section OrderedMap.
Context {V : Type}.

Fixpoint mget (k : string) (m : list (string * V)) : option V :=
  match m with
  | [] => None
  | (k', v) :: r => if decide (k' = k) then Some v else mget k r
  end.

(** [set] keeps the position of a key that is already there. *)
Fixpoint mset (k : string) (v : V) (m : list (string * V)) : list (string * V) :=
  match m with
  | [] => [(k, v)]
  | (k', v') :: r =>
      if decide (k' = k) then (k, v) :: r else (k', v') :: mset k v r
  end.

Fixpoint mdelete (k : string) (m : list (string * V)) : list (string * V) :=
  match m with
  | [] => []
  | (k', v') :: r =>
      if decide (k' = k) then mdelete k r else (k', v') :: mdelete k r
  end.

End OrderedMap.

End Js.

(* ===================================================================== *)
(** * The coordination relay ([server/routes.ts])                         *)
(* ===================================================================== *)

Module Relay.

(** A signaling socket, named by the connection it belongs to. *)
Definition Sock := nat.

Inductive ReadyState := CONNECTING | OPEN | CLOSING | CLOSED.

#[global] Instance ReadyState_eq_dec : EqDecision ReadyState.
Proof. solve_decision. Defined.

Record PeerConnection := {
  peerId : string;
  ws : Sock;
  displayName : option string;
}.

(** A frame after [JSON.parse]; payloads the relay only copies are kept as
    text.  [other] is any [type] the [switch] has no case for. *)
Inductive Message :=
| register (peerId : string) (displayName : option string)
| signal (to from signalData : string)
| offer (to from offer callType : string)
| answer (to from answer : string)
| ice_candidate (to from candidate : string)
| status_update (status : string)
| ping
| other (type : string).

(** What arrives on the socket: text that parses, or text that makes the
    [try] block throw. *)
Inductive Frame :=
| Parsed (m : Message)
| Malformed.

(** What the relay sends. *)
Inductive Reply :=
| registered (peerId : string)
| fwd_signal (from signalData : string)
| fwd_offer (from offer callType : string)
| fwd_answer (from answer : string)
| fwd_ice_candidate (from candidate : string)
| peer_status (peerId : option string) (status : string) (timestamp : Z)
| pong
| error (message : string).

(** The module-level [peers] map, the [currentPeerId] variable of every
    connection's closure ([None] is [null]) and the sockets' ready
    states. *)
Record State := {
  peers : list (string * PeerConnection);
  currentPeerId : gmap Sock string;
  readyState : Sock → ReadyState;
}.

Definition is_open (st : State) (s : Sock) : bool :=
  bool_decide (readyState st s = OPEN).

(** [targetPeer && targetPeer.ws.readyState === WebSocket.OPEN]. *)
Definition reachable (st : State) (to : string) : option PeerConnection :=
  match Js.mget to (peers st) with
  | Some target => if is_open st (ws target) then Some target else None
  | None => None
  end.

(** [currentPeerId], read in a condition: [null] and the empty string are
    falsy. *)
Definition current_truthy (st : State) (s : Sock) : option string :=
  match currentPeerId st !! s with
  | Some p => if Js.truthy_string p then Some p else None
  | None => None
  end.

(** The [ws.on('message')] handler of the connection on socket [s]; [now]
    is [Date.now()].  Returns the new state and the [send] calls made, in
    order. *)
Definition onMessage (st : State) (s : Sock) (now : Z) (f : Frame)
  : State * list (Sock * Reply) :=
  match f with
  | Malformed => (st, [(s, error "Invalid message format")])
  | Parsed m =>
      match m with
      | register p dn =>
          ({| peers := Js.mset p {| peerId := p; ws := s; displayName := dn |} (peers st);
              currentPeerId := <[s := p]> (currentPeerId st);
              readyState := readyState st |},
           [(s, registered p)])
      | signal to from signalData =>
          match reachable st to with
          | Some target => (st, [(ws target, fwd_signal from signalData)])
          | None => (st, [(s, error "Target peer not available")])
          end
      | offer to from o callType =>
          match reachable st to with
          | Some target => (st, [(ws target, fwd_offer from o callType)])
          | None => (st, [])
          end
      | answer to from a =>
          match reachable st to with
          | Some target => (st, [(ws target, fwd_answer from a)])
          | None => (st, [])
          end
      | ice_candidate to from c =>
          match reachable st to with
          | Some target => (st, [(ws target, fwd_ice_candidate from c)])
          | None => (st, [])
          end
      | status_update status =>
          let statusUpdate := peer_status (currentPeerId st !! s) status now in
          (st,
           (λ e, (ws e.2, statusUpdate)) <$>
             filter (λ e, Some e.1 ≠ currentPeerId st !! s ∧ readyState st (ws e.2) = OPEN)
                    (peers st))
      | ping => (st, [(s, pong)])
      | other _ => (st, [])
      end
  end.

(** The [ws.on('close')] handler of the connection on socket [s]. *)
Definition onClose (st : State) (s : Sock) (now : Z)
  : State * list (Sock * Reply) :=
  match current_truthy st s with
  | Some p =>
      let peers' := Js.mdelete p (peers st) in
      let disconnectNotification := peer_status (Some p) "offline" now in
      ({| peers := peers';
          currentPeerId := currentPeerId st;
          readyState := readyState st |},
       (λ e, (ws e.2, disconnectNotification)) <$>
         filter (λ e, readyState st (ws e.2) = OPEN) peers')
  | None => (st, [])
  end.

(** What happens at the relay: a client connects, a frame arrives, a
    socket closes.  The library marks a socket [CLOSED] before it emits
    [close]. *)
Inductive Event :=
| EConnection (s : Sock)
| EMessage (s : Sock) (now : Z) (f : Frame)
| EClose (s : Sock) (now : Z).

Definition set_ready (st : State) (s : Sock) (r : ReadyState) : State :=
  {| peers := peers st;
     currentPeerId := currentPeerId st;
     readyState := λ s', if decide (s' = s) then r else readyState st s' |}.

Definition step (st : State) (e : Event) : State * list (Sock * Reply) :=
  match e with
  | EConnection s =>
      ({| peers := peers st;
          currentPeerId := delete s (currentPeerId st);
          readyState := readyState (set_ready st s OPEN) |}, [])
  | EMessage s now f => onMessage st s now f
  | EClose s now => onClose (set_ready st s CLOSED) s now
  end.

(** Runs the events in order and collects every [send]. *)
Fixpoint run (st : State) (es : list Event) : State * list (Sock * Reply) :=
  match es with
  | [] => (st, [])
  | e :: es' =>
      let '(st1, out1) := step st e in
      let '(st2, out2) := run st1 es' in
      (st2, out1 ++ out2)
  end.

Definition init : State :=
  {| peers := []; currentPeerId := ∅; readyState := λ _, CLOSED |}.

(** The four kinds of frame the relay forwards by target id. *)
Inductive Forwarding : Message → string → Prop :=
| fw_signal to from d : Forwarding (signal to from d) to
| fw_offer to from o c : Forwarding (offer to from o c) to
| fw_answer to from a : Forwarding (answer to from a) to
| fw_ice_candidate to from c : Forwarding (ice_candidate to from c) to.

(** The target is not registered, or its registered socket is not open. *)
Definition unavailable (st : State) (to : string) : Prop :=
  match Js.mget to (peers st) with
  | Some target => readyState st (ws target) ≠ OPEN
  | None => True
  end.


(** The registry is a well-formed map: no id occurs twice, and every entry
    is stored under the [peerId] it carries. *)
Definition registry_ok (st : State) : Prop :=
  NoDup (peers st).*1 ∧ ∀ k pc, (k, pc) ∈ peers st → peerId pc = k.

End Relay.

(* ===================================================================== *)
(** * The transport library, as the manager uses it                       *)
(* ===================================================================== *)

Module PeerJS.

(** A [DataConnection]: the remote id ([conn.peer]) and the identity of the
    object. *)
Record DataConnection := {
  peer : string;
  connectionId : nat;
}.

#[global] Instance DataConnection_eq_dec : EqDecision DataConnection.
Proof. solve_decision. Defined.

(** A [Peer] instance: the channels its [connect] has handed out, newest
    first. *)
Record Peer := {
  channels : list DataConnection;
}.

(** [peer.connect(id, { reliable: true })] when it returns. *)
Definition connect (p : Peer) (id : string) : DataConnection * Peer :=
  let conn := {| peer := id; connectionId := length (channels p) |} in
  (conn, {| channels := conn :: channels p |}).

End PeerJS.

(* ===================================================================== *)
(** * The transport manager (class [WebRTCManager])                       *)
(* ===================================================================== *)

Module Manager.

Inductive PeerConnectionStatus := disconnected | connecting | connected | failed.

(** The fields of a [Contact] that the manager reads. *)
Record Contact := {
  id : string;
  peerId : string;
  displayName : string;
}.

(** How a call ends: it returns a value, or an exception leaves it. *)
Inductive completion (A : Type) :=
| Normal (a : A)
| Abrupt.
Arguments Normal {A} a.
Arguments Abrupt {A}.

(** [try { body } catch { handler }]. *)
Definition try_catch {A} (body : completion A) (handler : completion A) : completion A :=
  match body with
  | Normal a => Normal a
  | Abrupt => handler
  end.

(** The state of the promise [connectToPeer] returns, when the call
    returns. *)
Inductive Settled := Resolved | Rejected | Pending.

Section WebRTCManager.
(** [Msg] is [WebRTCMessage]; [App] is the state the registered callbacks
    act on. *)
Context {Msg App : Type}.

(** What the library and the runtime answer at the time of a call:
    [JSON.parse] ([None] when it throws), [conn.open], whether
    [conn.send(message)] throws, and whether the [try] block of
    [connectToPeer] is left by an exception ([peer.connect] throws, or
    yields no connection for [setupConnection] to read). *)
Record Transport := {
  JSON_parse : string → option Msg;
  conn_open : PeerJS.DataConnection → bool;
  send_throws : PeerJS.DataConnection → Msg → bool;
  connect_throws : PeerJS.Peer → string → bool;
}.

Record WebRTCManager := {
  peer : option PeerJS.Peer;
  connections : gmap string PeerJS.DataConnection;
  messageHandlers : gmap string (Msg → App → App);
  statusHandlers : gmap string (PeerConnectionStatus → App → App);
}.

Definition with_connections (m : WebRTCManager)
    (c : gmap string PeerJS.DataConnection) : WebRTCManager :=
  {| peer := peer m;
     connections := c;
     messageHandlers := messageHandlers m;
     statusHandlers := statusHandlers m |}.

Definition with_peer (m : WebRTCManager) (p : option PeerJS.Peer) : WebRTCManager :=
  {| peer := p;
     connections := connections m;
     messageHandlers := messageHandlers m;
     statusHandlers := statusHandlers m |}.

(** [new WebRTCManager()], as far as the channel layer goes. *)
Definition create : WebRTCManager :=
  {| peer := None; connections := ∅; messageHandlers := ∅; statusHandlers := ∅ |}.

(** [const statusHandler = this.statusHandlers.get(contactId);
     if (statusHandler) statusHandler(status)]. *)
Definition notifyStatus (m : WebRTCManager) (contactId : string)
    (status : PeerConnectionStatus) (app : App) : App :=
  match statusHandlers m !! contactId with
  | Some statusHandler => statusHandler status app
  | None => app
  end.

(** [setupConnection]: the [data], [close] and [error] listeners it
    attaches are [handlePeerData], [connClose] and a log line; the
    connection is stored only when the id has no entry yet. *)
Definition setupConnection (m : WebRTCManager) (conn : PeerJS.DataConnection)
  : WebRTCManager :=
  let peerId := PeerJS.peer conn in
  if decide (is_Some (connections m !! peerId)) then m
  else with_connections m (<[peerId := conn]> (connections m)).

(** The [close] listener of a connection. *)
Definition connClose (m : WebRTCManager) (conn : PeerJS.DataConnection)
  : WebRTCManager :=
  with_connections m (delete (PeerJS.peer conn) (connections m)).

Definition connectToPeer (T : Transport) (m : WebRTCManager) (contact : Contact)
    (app : App) : WebRTCManager * App * Settled :=
  if decide (is_Some (connections m !! peerId contact)) then (m, app, Resolved)
  else
    match peer m with
    | None => (m, app, Rejected)
    | Some p =>
        let app1 := notifyStatus m (id contact) connecting app in
        if connect_throws T p (peerId contact) then
          (m, notifyStatus m (id contact) failed app1, Rejected)
        else
          let '(conn, p') := PeerJS.connect p (peerId contact) in
          let m1 := setupConnection (with_peer m (Some p')) conn in
          (with_connections m1 (<[peerId contact := conn]> (connections m1)),
           app1, Pending)
    end.

(** The [open] and [error] listeners [connectToPeer] attaches. *)
Definition connectOpen (m : WebRTCManager) (contact : Contact) (app : App) : App :=
  notifyStatus m (id contact) connected app.

Definition connectError (m : WebRTCManager) (contact : Contact) (app : App) : App :=
  notifyStatus m (id contact) failed app.

(** [handlePeerData]: the payload is parsed when it is text; a failure to
    parse is caught and logged. *)
Definition handlePeerData (T : Transport) (m : WebRTCManager) (peerId : string)
    (data : string + Msg) (app : App) : App :=
  let parsed := match data with inl text => JSON_parse T text | inr message => Some message end in
  match parsed with
  | None => app
  | Some message =>
      match messageHandlers m !! peerId with
      | Some handler => handler message app
      | None => app
      end
  end.

(** [conn.send(message)]. *)
Definition conn_send (T : Transport) (conn : PeerJS.DataConnection) (message : Msg)
  : completion unit :=
  if send_throws T conn message then Abrupt else Normal tt.

Definition sendMessage (T : Transport) (m : WebRTCManager) (peerId : string)
    (message : Msg) : completion (bool * WebRTCManager) :=
  match connections m !! peerId with
  | Some conn =>
      if conn_open T conn then
        try_catch
          (match conn_send T conn message with
           | Normal _ => Normal (true, m)
           | Abrupt => Abrupt
           end)
          (Normal (false, with_connections m (delete peerId (connections m))))
      else
        Normal (false, with_connections m (delete peerId (connections m)))
  | None => Normal (false, m)
  end.

Definition onMessage (m : WebRTCManager) (peerId : string) (handler : Msg → App → App)
  : WebRTCManager :=
  {| peer := peer m;
     connections := connections m;
     messageHandlers := <[peerId := handler]> (messageHandlers m);
     statusHandlers := statusHandlers m |}.

Definition onStatusChange (m : WebRTCManager) (contactId : string)
    (handler : PeerConnectionStatus → App → App) : WebRTCManager :=
  {| peer := peer m;
     connections := connections m;
     messageHandlers := messageHandlers m;
     statusHandlers := <[contactId := handler]> (statusHandlers m) |}.

Definition disconnect (m : WebRTCManager) (peerId : string) : WebRTCManager :=
  match connections m !! peerId with
  | Some _ => with_connections m (delete peerId (connections m))
  | None => m
  end.

(** What happens to a manager: its methods are called and its listeners
    fire.  [OpInitializePeer] is [initializePeer] when it creates a fresh
    [Peer]; [OpPeerClose] is the [close] listener of the [Peer]. *)
Inductive Op :=
| OpInitializePeer
| OpPeerClose
| OpConnectToPeer (T : Transport) (contact : Contact)
| OpIncoming (conn : PeerJS.DataConnection)
| OpConnClose (conn : PeerJS.DataConnection)
| OpSendMessage (T : Transport) (peerId : string) (message : Msg)
| OpDisconnect (peerId : string)
| OpOnMessage (peerId : string) (handler : Msg → App → App)
| OpOnStatusChange (contactId : string) (handler : PeerConnectionStatus → App → App).

Definition apply (m : WebRTCManager) (app : App) (op : Op) : WebRTCManager * App :=
  match op with
  | OpInitializePeer => (with_peer m (Some {| PeerJS.channels := [] |}), app)
  | OpPeerClose => (with_connections m ∅, app)
  | OpConnectToPeer T contact =>
      let '(m', app', _) := connectToPeer T m contact app in (m', app')
  | OpIncoming conn => (setupConnection m conn, app)
  | OpConnClose conn => (connClose m conn, app)
  | OpSendMessage T peerId message =>
      match sendMessage T m peerId message with
      | Normal (_, m') => (m', app)
      | Abrupt => (m, app)
      end
  | OpDisconnect peerId => (disconnect m peerId, app)
  | OpOnMessage peerId handler => (onMessage m peerId handler, app)
  | OpOnStatusChange contactId handler => (onStatusChange m contactId handler, app)
  end.

Definition run (m : WebRTCManager) (app : App) (ops : list Op) : WebRTCManager * App :=
  foldl (λ s op, apply s.1 s.2 op) (m, app) ops.

(** Every record sits under the remote id of its own channel, so an id has
    at most one record. *)
Definition one_record_per_peer (m : WebRTCManager) : Prop :=
  ∀ k1 k2 c1 c2,
    connections m !! k1 = Some c1 → connections m !! k2 = Some c2 →
    PeerJS.peer c1 = PeerJS.peer c2 → k1 = k2 ∧ c1 = c2.

(** Every record of the map sits under the remote id of its channel. *)
Definition keyed (m : WebRTCManager) : Prop :=
  ∀ k c, connections m !! k = Some c → PeerJS.peer c = k.

(** The channels the library has handed out so far. *)
Definition issued (m : WebRTCManager) : nat :=
  match peer m with
  | Some p => length (PeerJS.channels p)
  | None => 0
  end.

(** [connectToPeer] called once per element of [Ts], one call after the
    other, for the same contact. *)
Fixpoint connectRepeatedly (Ts : list Transport) (m : WebRTCManager)
    (contact : Contact) (app : App) : WebRTCManager * App :=
  match Ts with
  | [] => (m, app)
  | T :: Ts' =>
      let '(m', app', _) := connectToPeer T m contact app in
      connectRepeatedly Ts' m' contact app'
  end.

(** [ensureConnection] up to its first [await]: either it returns [true]
    at once, or it awaits the promise of [connectToPeer], whose state at
    that point is given. *)
Inductive Ensuring :=
| EnsuredOpen
| Awaiting (promise : Settled).

Definition ensureConnectionStart (T : Transport) (m : WebRTCManager)
    (contact : Contact) (app : App) : WebRTCManager * App * Ensuring :=
  match connections m !! peerId contact with
  | Some conn =>
      if conn_open T conn then (m, app, EnsuredOpen)
      else
        let '(m', app', promise) :=
          connectToPeer T (with_connections m (delete (peerId contact) (connections m)))
                        contact app in
        (m', app', Awaiting promise)
  | None =>
      let '(m', app', promise) := connectToPeer T m contact app in
      (m', app', Awaiting promise)
  end.

(** The end of [ensureConnection]: [false] from the [catch] when the
    promise was rejected; otherwise, after the wait, whether the record
    then in the map is open. *)
Definition ensureConnectionEnd (T : Transport) (m : WebRTCManager)
    (contact : Contact) (rejected : bool) : bool :=
  if rejected then false
  else
    match connections m !! peerId contact with
    | Some newConn => conn_open T newConn
    | None => false
    end.

End WebRTCManager.

Arguments Transport : clear implicits.
Arguments WebRTCManager : clear implicits.
Arguments Op : clear implicits.

End Manager.

(* ===================================================================== *)
(** * The signaling socket of the manager and its reconnection policy     *)
(* ===================================================================== *)

Module Signaling.

Definition maxReconnectAttempts : Z := 5.
Definition reconnectDelay : Z := 1000.

(** [reconnectAttempts] is the manager's field.  [sockets] counts the
    [WebSocket] objects whose [close] has not fired yet and [timers] holds
    the delays of the pending [setTimeout] callbacks.  [scheduled] is not in
    the source: it records the delays handed to [setTimeout] since the
    socket last opened, oldest first. *)
Record State := {
  reconnectAttempts : Z;
  sockets : nat;
  timers : list Z;
  scheduled : list Z;
}.

Definition attemptReconnect (s : State) : State :=
  if (reconnectAttempts s <? maxReconnectAttempts)%Z then
    let attempts := (reconnectAttempts s + 1)%Z in
    {| reconnectAttempts := attempts;
       sockets := sockets s;
       timers := timers s ++ [(reconnectDelay * attempts)%Z];
       scheduled := scheduled s ++ [(reconnectDelay * attempts)%Z] |}
  else s.

(** [initializeWebSocket]: [new WebSocket(url)] returns a socket whose
    listeners are then attached, or throws into the [catch]. *)
Definition initializeWebSocket (throws : bool) (s : State) : State :=
  if throws then attemptReconnect s
  else {| reconnectAttempts := reconnectAttempts s;
          sockets := S (sockets s);
          timers := timers s;
          scheduled := scheduled s |}.

(** [ws.onopen]. *)
Definition onopen (s : State) : State :=
  {| reconnectAttempts := 0;
     sockets := sockets s;
     timers := timers s;
     scheduled := [] |}.

(** [ws.onclose], fired once per socket. *)
Definition onclose (s : State) : State :=
  attemptReconnect
    {| reconnectAttempts := reconnectAttempts s;
       sockets := pred (sockets s);
       timers := timers s;
       scheduled := scheduled s |}.

(** The constructor calls [initializeWebSocket]. *)
Definition create (throws : bool) : State :=
  initializeWebSocket throws
    {| reconnectAttempts := 0; sockets := 0; timers := []; scheduled := [] |}.

(** What the event loop can deliver: a socket opens, a socket closes, the
    [i]-th pending timer fires (its callback is [initializeWebSocket]). *)
Inductive Event :=
| EvOpen
| EvClose
| EvTimer (i : nat) (throws : bool).

(** The state after the event, when the event can happen. *)
Definition fire (e : Event) (s : State) : option State :=
  match e with
  | EvOpen => if decide (0 < sockets s) then Some (onopen s) else None
  | EvClose => if decide (0 < sockets s) then Some (onclose s) else None
  | EvTimer i throws =>
      match timers s !! i with
      | Some _ =>
          Some (initializeWebSocket throws
                  {| reconnectAttempts := reconnectAttempts s;
                     sockets := sockets s;
                     timers := delete i (timers s);
                     scheduled := scheduled s |})
      | None => None
      end
  end.

Inductive reachable : State → Prop :=
| reach_create throws : reachable (create throws)
| reach_fire e s s' : reachable s → fire e s = Some s' → reachable s'.


(** The delays of attempts 1 to [k]. *)
Definition delays (k : Z) : list Z :=
  (λ i, reconnectDelay * Z.of_nat i)%Z <$> seq 1 (Z.to_nat k).

(** What holds in every state the manager can be in: the counter stays
    between 0 and the maximum, the delays scheduled since the socket last
    opened are those of attempts 1 to [reconnectAttempts], and at most one
    socket or one timer is outstanding. *)
Definition policy (s : State) : Prop :=
  (0 ≤ reconnectAttempts s ≤ maxReconnectAttempts)%Z ∧
  scheduled s = delays (reconnectAttempts s) ∧
  sockets s + length (timers s) ≤ 1.

(** The state after the events, when each of them can happen. *)
Definition play (es : list Event) (s : State) : option State :=
  foldl (λ o e, o ≫= fire e) (Some s) es.

End Signaling.

(* ===================================================================== *)
(** * Stored records ([shared/schema.ts]) and data-channel envelopes      *)
(* ===================================================================== *)

Module Schema.

(** [fileData] of a message; [url] is the object URL of a received blob,
    kept here as the bytes of the blob it names. *)
Record FileData := {
  name : option string;
  size : option Z;
  mimeType : option string;
  url : option (list Z);
  thumbnail : option string;
}.

Record Message := {
  id : string;
  contactId : string;
  content : option string;
  type : string;
  sender : string;
  timestamp : Z;
  status : string;
  fileData : option FileData;
}.

Definition with_status (m : Message) (s : string) : Message :=
  {| id := id m; contactId := contactId m; content := content m; type := type m;
     sender := sender m; timestamp := timestamp m; status := s;
     fileData := fileData m |}.

End Schema.

Module Wire.

(** The fields of [data] that the chat window reads or writes; [None] is
    a field that is not there ([undefined]).  [dataType] is [data.type];
    [chunkData] is the array of numbers a chunk carries. *)
Record Data := {
  content : option string;
  dataType : option string;
  fileId : option string;
  chunkIndex : option nat;
  chunkData : list Z;
  chunks : option nat;
  name : option string;
  size : option Z;
  mimeType : option string;
  preview : option string;
}.

Record WebRTCMessage := {
  type : string;
  messageId : string;
  timestamp : Z;
  data : Data;
}.

Definition no_data : Data :=
  {| content := None; dataType := None; fileId := None; chunkIndex := None;
     chunkData := []; chunks := None; name := None; size := None;
     mimeType := None; preview := None |}.

End Wire.

(* ===================================================================== *)
(** * The chat window ([ChatWindow]): receiving and sending files         *)
(* ===================================================================== *)

Module ChatWindow.

Definition getFileType (mimeType : string) : string :=
  if String.prefix "image/" mimeType then "image"
  else if String.prefix "video/" mimeType then "video"
  else if String.prefix "audio/" mimeType then "audio"
  else "file".

(** What [new Uint8Array(numbers)] stores for one number. *)
Definition toUint8 (x : Z) : Z := (x mod 256)%Z.

(** An entry of [fileChunksRef]. *)
Record FileTransfer := {
  meta : Wire.Data;
  chunks : list (option (list Z));
  receivedCount : nat;
}.

(** [if (fileTransfer.chunks[chunkIndex] === null) { ... }]: a slot that is
    out of range or already holds bytes is left alone. *)
Definition storeChunk (fileTransfer : FileTransfer) (chunkIndex : option nat)
    (chunkData : list Z) : FileTransfer :=
  match chunkIndex with
  | Some i =>
      match chunks fileTransfer !! i with
      | Some None =>
          {| meta := meta fileTransfer;
             chunks := <[i := Some chunkData]> (chunks fileTransfer);
             receivedCount := S (receivedCount fileTransfer) |}
      | _ => fileTransfer
      end
  | None => fileTransfer
  end.

(** [completeFile.set(chunk, offset)], for a chunk that fits. *)
Definition set_at (completeFile chunk : list Z) (offset : nat) : list Z :=
  take offset completeFile ++ chunk ++ drop (offset + length chunk) completeFile.

(** The reconstruction loop: a zeroed buffer of the total size, filled
    chunk by chunk at a running offset. *)
Definition reconstruct (chunks : list (option (list Z))) : list Z :=
  let totalSize := foldl (λ sum chunk, sum + length (default [] chunk)) 0 chunks in
  let completeFile := replicate totalSize 0%Z in
  (foldl (λ '(buf, offset) chunk,
            match chunk with
            | Some c => (set_at buf c offset, offset + length c)
            | None => (buf, offset)
            end)
         (completeFile, 0) chunks).1.

Inductive Effect :=
| Alert (text : string)
| LogError (text : string)
| SaveMessage (m : Schema.Message)
| AppendMessage (m : Schema.Message)
| ReplaceMessage (m : Schema.Message)
| Notify (contactName : string) (body : option string)
| Sent (m : Wire.WebRTCMessage).

(** What is left of a handler call after its [await saveMessage(...)]:
    the message to show, the session to drop and the notification. *)
Record Continuation := {
  receivedMessage : Schema.Message;
  finished : option string;
  notice : option string;
}.

(** [fileChunksRef.current] and the handler calls suspended at their
    [await], oldest first. *)
Record State := {
  fileChunks : gmap string FileTransfer;
  suspended : list Continuation;
}.

Definition with_fileChunks (st : State) (f : gmap string FileTransfer) : State :=
  {| fileChunks := f; suspended := suspended st |}.

Definition suspend (st : State) (k : Continuation) : State :=
  {| fileChunks := fileChunks st; suspended := suspended st ++ [k] |}.

(** The chat window as it is mounted: [useRef(new Map())], no handler call
    under way. *)
Definition init : State := {| fileChunks := ∅; suspended := [] |}.

(** The handler [setupPeerConnection] registers for the contact, up to its
    first [await]. *)
Definition onMessage (contact : Manager.Contact) (st : State)
    (webrtcMessage : Wire.WebRTCMessage) : State * list Effect :=
  let data := Wire.data webrtcMessage in
  if String.eqb (Wire.type webrtcMessage) "chat" then
    let receivedMessage :=
      {| Schema.id := Wire.messageId webrtcMessage;
         Schema.contactId := Manager.id contact;
         Schema.content := Wire.content data;
         Schema.type :=
           match Wire.dataType data with
           | Some t => if Js.truthy_string t then t else "text"
           | None => "text"
           end;
         Schema.sender := "them";
         Schema.timestamp := Wire.timestamp webrtcMessage;
         Schema.status := "delivered";
         Schema.fileData := None |} in
    (suspend st {| receivedMessage := receivedMessage; finished := None;
                   notice := Wire.content data |},
     [SaveMessage receivedMessage])
  else if String.eqb (Wire.type webrtcMessage) "file" then
    match Wire.fileId data with
    | Some fileId =>
        if Js.truthy_string fileId then
          match fileChunks st !! fileId with
          | None => (st, [])
          | Some fileTransfer0 =>
              let fileTransfer :=
                storeChunk fileTransfer0 (Wire.chunkIndex data)
                           (toUint8 <$> Wire.chunkData data) in
              let st1 := with_fileChunks st (<[fileId := fileTransfer]> (fileChunks st)) in
              if decide (receivedCount fileTransfer = length (chunks fileTransfer)) then
                if existsb (λ c, bool_decide (c = None)) (chunks fileTransfer) then
                  (with_fileChunks st1 (delete fileId (fileChunks st1)),
                   [LogError "Missing chunks for file"])
                else
                  match Wire.mimeType (meta fileTransfer) with
                  | None => (st1, [])
                  | Some mimeType =>
                      let receivedMessage :=
                        {| Schema.id := fileId;
                           Schema.contactId := Manager.id contact;
                           Schema.content := Wire.name (meta fileTransfer);
                           Schema.type := getFileType mimeType;
                           Schema.sender := "them";
                           Schema.timestamp := Wire.timestamp webrtcMessage;
                           Schema.status := "delivered";
                           Schema.fileData := Some
                             {| Schema.name := Wire.name (meta fileTransfer);
                                Schema.size := Wire.size (meta fileTransfer);
                                Schema.mimeType := Some mimeType;
                                Schema.url := Some (reconstruct (chunks fileTransfer));
                                Schema.thumbnail := None |} |} in
                      (suspend st1
                         {| receivedMessage := receivedMessage;
                            finished := Some fileId;
                            notice := Some ("Sent a file: " +:+
                                            default "undefined" (Wire.name (meta fileTransfer))) |},
                       [SaveMessage receivedMessage])
                  end
              else (st1, [])
          end
        else
          (with_fileChunks st
             (<[Wire.messageId webrtcMessage :=
                  {| meta := data;
                     chunks := replicate (default 0 (Wire.chunks data)) None;
                     receivedCount := 0 |}]> (fileChunks st)), [])
    | None =>
        (with_fileChunks st
           (<[Wire.messageId webrtcMessage :=
                {| meta := data;
                   chunks := replicate (default 0 (Wire.chunks data)) None;
                   receivedCount := 0 |}]> (fileChunks st)), [])
    end
  else (st, []).

(** The rest of a handler call, once its [saveMessage] has settled. *)
Definition resume (contact : Manager.Contact) (st : State) (k : nat)
  : State * list Effect :=
  match suspended st !! k with
  | Some c =>
      ({| fileChunks :=
            match finished c with
            | Some fileId => delete fileId (fileChunks st)
            | None => fileChunks st
            end;
          suspended := delete k (suspended st) |},
       [AppendMessage (receivedMessage c);
        Notify (Manager.displayName contact) (notice c)])
  | None => (st, [])
  end.

(** One turn of the event loop at the receiver: an envelope is handed to
    the handler, or the [k]-th suspended call goes on. *)
Inductive Turn :=
| Deliver (m : Wire.WebRTCMessage)
| Resume (k : nat).

Definition turn (contact : Manager.Contact) (st : State) (t : Turn)
  : State * list Effect :=
  match t with
  | Deliver m => onMessage contact st m
  | Resume k => resume contact st k
  end.

Fixpoint run (contact : Manager.Contact) (st : State) (ts : list Turn)
  : State * list Effect :=
  match ts with
  | [] => (st, [])
  | t :: ts' =>
      let '(st1, out1) := turn contact st t in
      let '(st2, out2) := run contact st1 ts' in
      (st2, out1 ++ out2)
  end.

(** The byte sequences of the files the effects hand to the store. *)
Definition reconstructions (out : list Effect) : list (list Z) :=
  omap (λ e, match e with
             | SaveMessage m => Schema.fileData m ≫= Schema.url
             | _ => None
             end) out.

(** A metadata envelope declaring [n] chunks: [type] is [file] and
    [data.fileId] is not there. *)
Definition is_metadata (n : nat) (m : Wire.WebRTCMessage) : Prop :=
  Wire.type m = "file" ∧ Wire.fileId (Wire.data m) = None ∧
  Wire.chunks (Wire.data m) = Some n.

(** The chunk envelope of index [i] of the transfer [fileId]. *)
Definition is_chunk (fileId : string) (i : nat) (m : Wire.WebRTCMessage) : Prop :=
  Wire.type m = "file" ∧ Wire.fileId (Wire.data m) = Some fileId ∧
  Wire.chunkIndex (Wire.data m) = Some i.

(** The turns deliver nothing but the [n] chunk envelopes [chunk 0], ...,
    [chunk (n-1)], each of them at least once, in any order; suspended calls
    may go on at any point in between. *)
Definition delivers_all (n : nat) (chunk : nat → Wire.WebRTCMessage)
    (ts : list Turn) : Prop :=
  (∀ m, Deliver m ∈ ts → ∃ i, i < n ∧ m = chunk i) ∧
  (∀ i, i < n → Deliver (chunk i) ∈ ts).

(** In-order delivery, each envelope once. *)
Definition in_order (n : nat) (chunk : nat → Wire.WebRTCMessage) : list Turn :=
  (λ i, Deliver (chunk i)) <$> seq 0 n.

(** The slots' bytes, concatenated in index order. *)
Definition assembled (n : nat) (chunk : nat → Wire.WebRTCMessage) : list Z :=
  concat ((λ i, toUint8 <$> Wire.chunkData (Wire.data (chunk i))) <$> seq 0 n).

(** ** What the proofs about one transfer keep track of *)

(** The number of slots that hold bytes. *)
Definition filled (slots : list (option (list Z))) : nat :=
  length (filter is_Some slots).

Section Transfer.
Variable fileId : string.
Variable metaData : Wire.Data.
Variable n : nat.
Variable chunk : nat → Wire.WebRTCMessage.

(** The bytes slot [i] is to hold. *)
Definition slotBytes (i : nat) : list Z :=
  toUint8 <$> Wire.chunkData (Wire.data (chunk i)).

(** The turns hand over chunk envelopes of this transfer only. *)
Definition only_chunks (ts : list Turn) : Prop :=
  ∀ m, Deliver m ∈ ts → ∃ i, i < n ∧ m = chunk i.

(** The session of this transfer after the turns [seen]: its length is the
    declared count, a slot holds nothing but the bytes of its own chunk,
    the slot of every chunk delivered so far is filled, and the counter is
    the number of filled slots. *)
Definition session_ok (seen : list Turn) (ft : FileTransfer) : Prop :=
  meta ft = metaData ∧
  length (chunks ft) = n ∧
  (∀ i x, chunks ft !! i = Some (Some x) → x = slotBytes i) ∧
  (∀ i, i < n → Deliver (chunk i) ∈ seen → chunks ft !! i = Some (Some (slotBytes i))) ∧
  receivedCount ft = filled (chunks ft).

(** What holds of the receiver after the turns [seen], [rs] being the
    byte sequences reconstructed so far. *)
Definition inv (seen : list Turn) (st : State) (rs : list (list Z)) : Prop :=
  (∀ b, b ∈ rs → b = assembled n chunk) ∧
  (∀ ft, fileChunks st !! fileId = Some ft →
     session_ok seen ft ∧
     (receivedCount ft = n → 0 < n → is_Some (Wire.mimeType metaData) → rs ≠ [])) ∧
  (fileChunks st !! fileId = None → rs ≠ []) ∧
  (∀ c, c ∈ suspended st → finished c = Some fileId → rs ≠ []) ∧
  (Wire.mimeType metaData = None → rs = []) ∧
  (n = 0 → rs = []).

(** With an empty transfer id nothing is reconstructed and nothing is
    counted. *)
Definition idle (st : State) (rs : list (list Z)) : Prop :=
  rs = [] ∧ ∀ ft, fileChunks st !! fileId = Some ft → receivedCount ft = 0.

End Transfer.

(** ** Sending a file ([handleFileChange]) *)

(** The [File] the input element holds. *)
Record File := {
  name : string;
  size : Z;
  type : string;
  bytes : list Z;
}.

Definition maxSize : Z := 10 * 1024 * 1024.
Definition chunkSize : nat := Z.to_nat 16384.

(** [Math.ceil(byteLength / chunkSize)]. *)
Definition chunkCount (byteLength : nat) : nat :=
  (byteLength + (chunkSize - 1)) / chunkSize.

(** [arrayBuffer.slice(start, end)]. *)
Definition slice (arrayBuffer : list Z) (start end_ : nat) : list Z :=
  take (end_ - start) (drop start arrayBuffer).

Definition chunkEnvelope (messageId : string) (timestamp : Z) (arrayBuffer : list Z)
    (i : nat) : Wire.WebRTCMessage :=
  let start := i * chunkSize in
  let end_ := Nat.min (start + chunkSize) (length arrayBuffer) in
  {| Wire.type := "file";
     Wire.messageId := messageId +:+ "-chunk-" +:+ pretty i;
     Wire.timestamp := timestamp;
     Wire.data :=
       {| Wire.content := None; Wire.dataType := None;
          Wire.fileId := Some messageId;
          Wire.chunkIndex := Some i;
          Wire.chunkData := slice arrayBuffer start end_;
          Wire.chunks := None; Wire.name := None; Wire.size := None;
          Wire.mimeType := None; Wire.preview := None |} |}.

Definition metadataEnvelope (messageId : string) (timestamp : Z) (file : File)
    (preview : option string) : Wire.WebRTCMessage :=
  {| Wire.type := "file";
     Wire.messageId := messageId;
     Wire.timestamp := timestamp;
     Wire.data :=
       {| Wire.content := None; Wire.dataType := None;
          Wire.fileId := None; Wire.chunkIndex := None; Wire.chunkData := [];
          Wire.chunks := Some (chunkCount (length (bytes file)));
          Wire.name := Some (name file);
          Wire.size := Some (size file);
          Wire.mimeType := Some (type file);
          Wire.preview := preview |} |}.

Section Send.
Context {App : Type}.

(** The loop over the chunks; it stops at the first send that fails.  The
    result is [allChunksSent], or [None] when an exception left the loop. *)
Fixpoint sendChunks (T : Manager.Transport Wire.WebRTCMessage)
    (m : Manager.WebRTCManager Wire.WebRTCMessage App) (peerId messageId : string)
    (timestamp : Z) (arrayBuffer : list Z) (indices : list nat)
  : option bool * Manager.WebRTCManager Wire.WebRTCMessage App * list Effect :=
  match indices with
  | [] => (Some true, m, [])
  | i :: rest =>
      let envelope := chunkEnvelope messageId timestamp arrayBuffer i in
      match Manager.sendMessage T m peerId envelope with
      | Manager.Normal (true, m') =>
          let '(r, m'', out) := sendChunks T m' peerId messageId timestamp arrayBuffer rest in
          (r, m'', Sent envelope :: out)
      | Manager.Normal (false, m') => (Some false, m', [])
      | Manager.Abrupt => (None, m, [])
      end
  end.

(** [handleFileChange].  [messageId] is [nanoid()], [timestamp] is
    [Date.now()], [dataURL] is what the [FileReader] yields and
    [isConnected] is what [ensureConnection] settles to; [m] is the manager
    as [ensureConnection] leaves it (on the paths that call it).  The effects
    are listed in the order in which the code performs them. *)
Definition handleFileChange (T : Manager.Transport Wire.WebRTCMessage)
    (m : Manager.WebRTCManager Wire.WebRTCMessage App) (contact : Manager.Contact)
    (selected : option File) (messageId : string) (timestamp : Z)
    (dataURL : string) (isConnected : bool)
  : Manager.WebRTCManager Wire.WebRTCMessage App * list Effect :=
  match selected with
  | None => (m, [])
  | Some file =>
      if (maxSize <? size file)%Z then
        (m, [Alert "File too large. Maximum size is 10MB."])
      else
        let preview :=
          if String.prefix "image/" (type file) then Some dataURL else None in
        let message :=
          {| Schema.id := messageId;
             Schema.contactId := Manager.id contact;
             Schema.content := Some (name file);
             Schema.type := getFileType (type file);
             Schema.sender := "me";
             Schema.timestamp := timestamp;
             Schema.status := "sending";
             Schema.fileData := Some
               {| Schema.name := Some (name file);
                  Schema.size := Some (size file);
                  Schema.mimeType := Some (type file);
                  Schema.url := None;
                  Schema.thumbnail := preview |} |} in
        let failedMessage := Schema.with_status message "failed" in
        let begun := [AppendMessage message; SaveMessage message] in
        if negb isConnected then
          (m, begun ++ [SaveMessage failedMessage; ReplaceMessage failedMessage])
        else
          let arrayBuffer := bytes file in
          let metadata := metadataEnvelope messageId timestamp file preview in
          match Manager.sendMessage T m (Manager.peerId contact) metadata with
          | Manager.Normal (false, m1) =>
              (m1, begun ++ [SaveMessage failedMessage; ReplaceMessage failedMessage])
          | Manager.Normal (true, m1) =>
              let '(allChunksSent, m2, sent) :=
                sendChunks T m1 (Manager.peerId contact) messageId timestamp arrayBuffer
                           (seq 0 (chunkCount (length arrayBuffer))) in
              match allChunksSent with
              | Some ok =>
                  let finalMessage :=
                    Schema.with_status message (if ok then "sent" else "failed") in
                  (m2, begun ++ [Sent metadata] ++ sent ++
                       [SaveMessage finalMessage; ReplaceMessage finalMessage])
              | None => (m2, begun ++ [Sent metadata] ++ sent)
              end
          | Manager.Abrupt => (m, begun)
          end
  end.

(** The envelope of a text message. *)
Definition chatEnvelope (messageId : string) (timestamp : Z) (content : string)
  : Wire.WebRTCMessage :=
  {| Wire.type := "chat";
     Wire.messageId := messageId;
     Wire.timestamp := timestamp;
     Wire.data :=
       {| Wire.content := Some content; Wire.dataType := Some "text";
          Wire.fileId := None; Wire.chunkIndex := None; Wire.chunkData := [];
          Wire.chunks := None; Wire.name := None; Wire.size := None;
          Wire.mimeType := None; Wire.preview := None |} |}.

(** [handleSendMessage].  [messageText] and [isSending] are the state of
    the input box; the other arguments are as for [handleFileChange]. *)
Definition handleSendMessage (T : Manager.Transport Wire.WebRTCMessage)
    (m : Manager.WebRTCManager Wire.WebRTCMessage App) (contact : Manager.Contact)
    (messageText : string) (isSending : bool) (messageId : string) (timestamp : Z)
    (isConnected : bool)
  : Manager.WebRTCManager Wire.WebRTCMessage App * list Effect :=
  if negb (Js.truthy_string (Js.trim messageText)) || isSending then (m, [])
  else
    let content := Js.trim messageText in
    let message :=
      {| Schema.id := messageId;
         Schema.contactId := Manager.id contact;
         Schema.content := Some content;
         Schema.type := "text";
         Schema.sender := "me";
         Schema.timestamp := timestamp;
         Schema.status := "sending";
         Schema.fileData := None |} in
    let failedMessage := Schema.with_status message "failed" in
    let begun := [AppendMessage message; SaveMessage message] in
    if negb isConnected then
      (m, begun ++ [SaveMessage failedMessage; ReplaceMessage failedMessage])
    else
      let envelope := chatEnvelope messageId timestamp content in
      match Manager.sendMessage T m (Manager.peerId contact) envelope with
      | Manager.Normal (sent, m1) =>
          let updatedMessage :=
            Schema.with_status message (if sent then "sent" else "failed") in
          (m1, begun ++ (if sent then [Sent envelope] else []) ++
               [SaveMessage updatedMessage; ReplaceMessage updatedMessage])
      | Manager.Abrupt => (m, begun)
      end.

End Send.

(** The envelopes an effect list hands to the channel, in order. *)
Definition sentEnvelopes (out : list Effect) : list Wire.WebRTCMessage :=
  omap (λ e, match e with Sent m => Some m | _ => None end) out.

(** Every session counts the slots it has filled. *)
Definition counted (st : State) : Prop :=
  ∀ fileId ft, fileChunks st !! fileId = Some ft → receivedCount ft = filled (chunks ft).

(** The session of [fid], while it is there, still waits for chunk [j]. *)
Definition waiting (fid : string) (j : nat) (st : State) : Prop :=
  ∀ ft, fileChunks st !! fid = Some ft →
    chunks ft !! j = Some None ∧ receivedCount ft = filled (chunks ft).

(** The envelopes and the chat-message records an effect list holds. *)
Definition produces_nothing (out : list Effect) : Prop :=
  ∀ e, e ∈ out →
    match e with
    | Sent _ | SaveMessage _ | AppendMessage _ | ReplaceMessage _ => False
    | _ => True
    end.

End ChatWindow.

(* ===================================================================== *)
(** * The first-contact handshake ([initializePeerConnection])            *)
(* ===================================================================== *)

Module Handshake.

(** [message.data] of a [contact-info] envelope, as the receiver finds it. *)
Record ContactInfo := {
  peerId : Js.value;
  displayName : Js.value;
}.

Record Message := {
  type : string;
  data : ContactInfo;
}.

(** A [Contact] of [shared/schema.ts]. *)
Record Contact := {
  c_id : string;
  c_peerId : string;
  c_displayName : string;
  c_status : string;
  c_lastSeen : Z;
  c_addedAt : Z;
  c_unreadCount : Z;
}.

Inductive Effect :=
| Warn (text : string)
| Log (text : string)
| NotifyNewContact (contactName : string)
| ContactsChanged (k : nat).

(** The [contacts] object store, as [getAllContacts] lists it: by key,
    that is by [id], in the order of the code units. *)
Definition key_ordered (contacts : list Contact) : Prop :=
  Sorted (λ a b, String.compare (c_id a) (c_id b) = Lt) contacts.

(** [saveContact]: [put] replaces the record stored under the same [id],
    or adds the record at its place in the key order.  Every field of the
    new record is set, so the merge with the stored one is the new
    record. *)
Fixpoint saveContact (contact : Contact) (contacts : list Contact) : list Contact :=
  match contacts with
  | [] => [contact]
  | c :: r =>
      match String.compare (c_id c) (c_id contact) with
      | Eq => contact :: r
      | Lt => c :: saveContact contact r
      | Gt => contact :: c :: r
      end
  end.

(** The callback [initializePeerConnection] hands to [onGlobalMessage],
    run without another event in between.  [myId] is [profile.id],
    [observers] is the length of [contactsChangedCallbacksRef.current],
    [contacts] is the contact store; [nanoid] and [now] are the fresh id
    and the clock. *)
Definition onContactInfo (myId : string) (observers : nat) (contacts : list Contact)
    (peerId : string) (message : Message) (nanoid : string) (now : Z)
  : list Contact * list Effect :=
  if String.eqb (type message) "contact-info" then
    if String.eqb peerId myId then
      (contacts, [Warn "Rejected contact-info from self"])
    else if Js.truthy (Handshake.peerId (data message))
            && Js.strict_ne_string (Handshake.peerId (data message)) peerId then
      (contacts, [Warn "Rejected contact-info: peerId mismatch"])
    else
      match displayName (data message) with
      | Js.VString name =>
          if negb (Js.truthy_string name) || (String.length (Js.trim name) =? 0)%nat then
            (contacts, [Warn "Rejected contact-info: invalid displayName"])
          else
            match find (λ c, String.eqb (c_peerId c) peerId) contacts with
            | None =>
                let newContact :=
                  {| c_id := nanoid;
                     c_peerId := peerId;
                     c_displayName := Js.trim name;
                     c_status := "online";
                     c_lastSeen := now;
                     c_addedAt := now;
                     c_unreadCount := 0 |} in
                (saveContact newContact contacts,
                 [Log "Auto-added contact"; NotifyNewContact (c_displayName newContact)]
                 ++ (ContactsChanged <$> seq 0 observers))
            | Some _ => (contacts, [Log "Contact already exists, skipping auto-add"])
            end
      | _ => (contacts, [Warn "Rejected contact-info: invalid displayName"])
      end
  else (contacts, []).

(** The envelope is turned away: the store is as it was, no notification
    fires and no observer runs. *)
Definition rejected (contacts : list Contact) (r : list Contact * list Effect) : Prop :=
  r.1 = contacts ∧
  ∀ e, e ∈ r.2 →
    match e with
    | NotifyNewContact _ | ContactsChanged _ => False
    | _ => True
    end.

(** [data.peerId] is there. *)
Definition present (v : Js.value) : Prop := v ≠ Js.VUndefined.

End Handshake.

(* ===================================================================== *)
(** * Adding a contact by hand ([AddContactDialog], [QRScanner])          *)
(* ===================================================================== *)

Module AddContactDialog.

Inductive Effect :=
| Toast (title description : string)
| SetIsAdding (b : bool)
| ClearInputs
| ContactAdded.

(** [handleAddContact] of the dialog.  [peerId] and [displayName] are the
    two input fields, [currentUserId] is the prop; [nanoid] is the fresh id,
    [lastSeen] and [addedAt] are the two readings of the clock, and
    [save_fails] says whether [saveContact] rejects. *)
Definition handleAddContact (currentUserId : string) (contacts : list Handshake.Contact)
    (peerId displayName : string) (nanoid : string) (lastSeen addedAt : Z)
    (save_fails : bool) : list Handshake.Contact * list Effect :=
  if negb (Js.truthy_string (Js.trim peerId))
     || negb (Js.truthy_string (Js.trim displayName)) then
    (contacts,
     [Toast "Missing information" "Please provide both peer ID and display name"])
  else if String.eqb peerId currentUserId then
    (contacts, [Toast "Invalid ID" "You cannot add yourself as a contact"])
  else
    let contact :=
      {| Handshake.c_id := nanoid;
         Handshake.c_peerId := Js.trim peerId;
         Handshake.c_displayName := Js.trim displayName;
         Handshake.c_status := "offline";
         Handshake.c_lastSeen := lastSeen;
         Handshake.c_addedAt := addedAt;
         Handshake.c_unreadCount := 0 |} in
    if save_fails then
      (contacts,
       [SetIsAdding true;
        Toast "Error" "Failed to add contact. Please try again.";
        SetIsAdding false])
    else
      (Handshake.saveContact contact contacts,
       [SetIsAdding true;
        Toast "Contact added!" (displayName +:+ " has been added to your contacts");
        ClearInputs; ContactAdded; SetIsAdding false]).

End AddContactDialog.

Module QRScanner.

Inductive Effect :=
| Toast (title description : string)
| SetLocation (path : string).

(** [handleAddContact] of the scanner page.  [scannedId] is the text of the
    QR code, [profile] is the id of the stored profile, if there is one. *)
Definition handleAddContact (profile : option string) (contacts : list Handshake.Contact)
    (scannedId displayName : string) (nanoid : string) (lastSeen addedAt : Z)
  : list Handshake.Contact * list Effect :=
  if negb (Js.truthy_string scannedId)
     || negb (Js.truthy_string (Js.trim displayName)) then
    (contacts, [Toast "Missing information" "Please provide a display name"])
  else
    match profile with
    | None => (contacts, [SetLocation "/"])
    | Some profileId =>
        if String.eqb scannedId profileId then
          (contacts, [Toast "Invalid ID" "You cannot add yourself as a contact"])
        else
          let contact :=
            {| Handshake.c_id := nanoid;
               Handshake.c_peerId := scannedId;
               Handshake.c_displayName := Js.trim displayName;
               Handshake.c_status := "offline";
               Handshake.c_lastSeen := lastSeen;
               Handshake.c_addedAt := addedAt;
               Handshake.c_unreadCount := 0 |} in
          (Handshake.saveContact contact contacts,
           [Toast "Contact added!" (displayName +:+ " has been added to your contacts");
            SetLocation "/chat"])
    end.

End QRScanner.

(* ===================================================================== *)
(** * Creating the [Peer] ([registerPeer], [initializePeer])              *)
(* ===================================================================== *)

Module Registration.

(** A [Peer] object the manager has created: the id it was created with
    and the [displayName] its [open] listener has captured. *)
Record Peer := {
  peer_id : string;
  captured : string;
}.

(** The fields of the manager that [initializePeer] reads and writes, and
    the number of pending [setTimeout(..., 5000)] callbacks.  Two fields are
    not in the source: [started] lists [Date.now()] of every call of
    [initializePeer] that got past its guard, and [destroyCalls] lists the
    [Peer] objects on which [initializePeer] has called [destroy()], both
    oldest first. *)
Record State := {
  peer : option Peer;
  myPeerId : string;
  myDisplayName : string;
  isReinitializing : bool;
  lastReinitTime : Z;
  timers : nat;
  started : list Z;
  destroyCalls : list Peer;
}.

Definition create : State :=
  {| peer := None; myPeerId := ""; myDisplayName := ""; isReinitializing := false;
     lastReinitTime := 0; timers := 0; started := []; destroyCalls := [] |}.

Definition cooldown : Z := 3000.

(** [initializePeer].  [now] is [Date.now()], [wasDestroyed] is what
    [this.peer.destroyed] reads, and [peer_throws] says whether
    [new Peer(peerId)] throws; an exception of [destroy()] is caught and
    logged. *)
Definition initializePeer (now : Z) (peerId displayName : string)
    (wasDestroyed peer_throws : bool) (st : State) : State :=
  if isReinitializing st || (now - lastReinitTime st <? cooldown)%Z then st
  else
    {| peer :=
         if peer_throws then peer st
         else Some {| peer_id := peerId; captured := displayName |};
       myPeerId := myPeerId st;
       myDisplayName := myDisplayName st;
       isReinitializing := negb peer_throws;
       lastReinitTime := now;
       timers := timers st;
       started := started st ++ [now];
       destroyCalls :=
         match peer st with
         | Some p => if wasDestroyed then destroyCalls st else destroyCalls st ++ [p]
         | None => destroyCalls st
         end |}.

Definition identify (st : State) (peerId displayName : string) : State :=
  {| peer := peer st;
     myPeerId := peerId;
     myDisplayName := displayName;
     isReinitializing := isReinitializing st;
     lastReinitTime := lastReinitTime st;
     timers := timers st;
     started := started st;
     destroyCalls := destroyCalls st |}.

Definition registerPeer (now : Z) (peerId displayName : string)
    (wasDestroyed peer_throws : bool) (st : State) : State :=
  initializePeer now peerId displayName wasDestroyed peer_throws
                 (identify st peerId displayName).

(** [this.isReinitializing = false], as every listener of the [Peer]
    begins, with the number of pending timers afterwards. *)
Definition settle (st : State) (timers' : nat) : State :=
  {| peer := peer st;
     myPeerId := myPeerId st;
     myDisplayName := myDisplayName st;
     isReinitializing := false;
     lastReinitTime := lastReinitTime st;
     timers := timers';
     started := started st;
     destroyCalls := destroyCalls st |}.

(** What the event loop delivers: a call of [registerPeer]; the [open],
    [error], [disconnected] and [close] events of a [Peer] object ([p] is
    the object that opened, [id] the id the library passes to [open],
    [wsOpen] whether the signaling socket is open, [serverError] whether
    [error.type] is [server-error], [wasDestroyed] what
    [this.peer.destroyed] reads); and a pending timer. *)
Inductive Event :=
| ERegisterPeer (now : Z) (peerId displayName : string) (wasDestroyed peer_throws : bool)
| EPeerOpen (p : Peer) (id : string) (wsOpen : bool)
| EPeerError (serverError wasDestroyed : bool)
| EPeerDisconnected
| EPeerClose
| ETimer (now : Z) (wasDestroyed peer_throws : bool).

(** The new state and the [register] frames sent to the relay (id and
    display name). *)
Definition step (st : State) (e : Event) : State * list (string * string) :=
  match e with
  | ERegisterPeer now peerId displayName wasDestroyed peer_throws =>
      (registerPeer now peerId displayName wasDestroyed peer_throws st, [])
  | EPeerOpen p id wsOpen =>
      (settle st (timers st), if wsOpen then [(id, captured p)] else [])
  | EPeerError serverError wasDestroyed =>
      (settle st
         (if serverError && bool_decide (is_Some (peer st)) && wasDestroyed
          then S (timers st) else timers st), [])
  | EPeerDisconnected => (settle st (timers st), [])
  | EPeerClose => (settle st (timers st), [])
  | ETimer now wasDestroyed peer_throws =>
      match timers st with
      | 0 => (st, [])
      | S n =>
          (initializePeer now (myPeerId st) (myDisplayName st) wasDestroyed peer_throws
             {| peer := peer st;
                myPeerId := myPeerId st;
                myDisplayName := myDisplayName st;
                isReinitializing := isReinitializing st;
                lastReinitTime := lastReinitTime st;
                timers := n;
                started := started st;
                destroyCalls := destroyCalls st |}, [])
      end
  end.

Definition run (st : State) (es : list Event) : State :=
  foldl (λ s e, (step s e).1) st es.

(** Two calls in a row that got past the guard are at least the cooldown
    apart. *)
Definition spaced (l : list Z) : Prop :=
  ∀ i t1 t2, l !! i = Some t1 → l !! S i = Some t2 → (cooldown ≤ t2 - t1)%Z.

(** The guard's clock value is the time of the last call that got past
    it. *)
Definition tracked (st : State) : Prop :=
  spaced (started st) ∧
  match last (started st) with
  | Some t => lastReinitTime st = t
  | None => lastReinitTime st = 0%Z
  end.

(** An event of a [Peer] object. *)
Definition peer_event (e : Event) : Prop :=
  match e with
  | ERegisterPeer _ _ _ _ _ | ETimer _ _ _ => False
  | _ => True
  end.

End Registration.

(* ===================================================================== *)
(** * The provider ([PeerConnectionProvider]): statuses and presence      *)
(* ===================================================================== *)

Module Provider.

(** What the callbacks of the provider act on: the [connectionStatuses]
    map, the contact store, and the clock ([Date.now()]). *)
Record App := {
  connectionStatuses : gmap string Manager.PeerConnectionStatus;
  contacts : list Handshake.Contact;
  clock : Z;
}.

Definition set_status (app : App) (contactId : string)
    (status : Manager.PeerConnectionStatus) : App :=
  {| connectionStatuses := <[contactId := status]> (connectionStatuses app);
     contacts := contacts app;
     clock := clock app |}.

Definition save (app : App) (contact : Handshake.Contact) : App :=
  {| connectionStatuses := connectionStatuses app;
     contacts := Handshake.saveContact contact (contacts app);
     clock := clock app |}.

(** [{ ...contact, status, lastSeen: Date.now() }]. *)
Definition updated (contact : Handshake.Contact) (status : string) (now : Z)
  : Handshake.Contact :=
  {| Handshake.c_id := Handshake.c_id contact;
     Handshake.c_peerId := Handshake.c_peerId contact;
     Handshake.c_displayName := Handshake.c_displayName contact;
     Handshake.c_status := status;
     Handshake.c_lastSeen := now;
     Handshake.c_addedAt := Handshake.c_addedAt contact;
     Handshake.c_unreadCount := Handshake.c_unreadCount contact |}.

(** The fields of the contact the manager reads. *)
Definition toManager (contact : Handshake.Contact) : Manager.Contact :=
  {| Manager.id := Handshake.c_id contact;
     Manager.peerId := Handshake.c_peerId contact;
     Manager.displayName := Handshake.c_displayName contact |}.

(** The handler [connectToPeer] registers with [onStatusChange]; [contact]
    is the record the caller passed. *)
Definition statusHandler (contact : Handshake.Contact)
    (status : Manager.PeerConnectionStatus) (app : App) : App :=
  let app1 := set_status app (Handshake.c_id contact) status in
  save app1
       (updated contact
          (match status with Manager.connected => "online" | _ => "offline" end)
          (clock app1)).

(** [connectToPeer] of the provider. *)
Definition connectToPeer {Msg} (T : Manager.Transport Msg)
    (m : Manager.WebRTCManager Msg App) (contact : Handshake.Contact) (app : App)
  : Manager.WebRTCManager Msg App * App * Manager.Settled :=
  let app1 := set_status app (Handshake.c_id contact) Manager.connecting in
  let m1 := Manager.onStatusChange m (Handshake.c_id contact) (statusHandler contact) in
  let '(m2, app2, settled) := Manager.connectToPeer T m1 (toManager contact) app1 in
  match settled with
  | Manager.Rejected => (m2, set_status app2 (Handshake.c_id contact) Manager.failed, settled)
  | _ => (m2, app2, settled)
  end.


(** An operation of the manager that calls no status handler: every one
    but [connectToPeer]. *)
Definition calls_no_status_handler {Msg} (op : Manager.Op Msg App) : Prop :=
  match op with
  | Manager.OpConnectToPeer _ _ => False
  | _ => True
  end.










End Provider.

(* ===================================================================== *)
(** * Concrete inputs used by the examples below                          *)
(* ===================================================================== *)

Module Examples.

(** Transports of the manager: one whose connections are open, one whose
    connections are closed. *)
Definition anyTransport {Msg} : Manager.Transport Msg :=
  {| Manager.JSON_parse := λ _, None;
     Manager.conn_open := λ _, true;
     Manager.send_throws := λ _ _, false;
     Manager.connect_throws := λ _ _, false |}.

Definition closedTransport {Msg} : Manager.Transport Msg :=
  {| Manager.JSON_parse := λ _, None;
     Manager.conn_open := λ _, false;
     Manager.send_throws := λ _ _, false;
     Manager.connect_throws := λ _ _, false |}.

(** One whose connections are open and whose [send] throws. *)
Definition throwingTransport {Msg} : Manager.Transport Msg :=
  {| Manager.JSON_parse := λ _, None;
     Manager.conn_open := λ _, true;
     Manager.send_throws := λ _ _, true;
     Manager.connect_throws := λ _ _, false |}.


(** The socket fails to connect five times in a row. *)
Definition fiveFailures : list Signaling.Event :=
  [Signaling.EvClose; Signaling.EvTimer 0 false; Signaling.EvClose; Signaling.EvTimer 0 false; Signaling.EvClose; Signaling.EvTimer 0 false;
   Signaling.EvClose; Signaling.EvTimer 0 false; Signaling.EvClose; Signaling.EvTimer 0 false].

(** The example of the specification: four chunks arrive in the order
    2, 0, 3, 1 and chunk 2 arrives once more; the suspended handler call goes
    on in between. *)
Definition demoContact : Manager.Contact :=
  {| Manager.id := "c1"; Manager.peerId := "b2"; Manager.displayName := "Bea" |}.

Definition demoMetadata : Wire.WebRTCMessage :=
  {| Wire.type := "file"; Wire.messageId := "f1"; Wire.timestamp := 10;
     Wire.data :=
       {| Wire.content := None; Wire.dataType := None; Wire.fileId := None;
          Wire.chunkIndex := None; Wire.chunkData := []; Wire.chunks := Some 4;
          Wire.name := Some "a.bin"; Wire.size := Some 8%Z;
          Wire.mimeType := Some "application/octet-stream";
          Wire.preview := None |} |}.

Definition demoChunk (i : nat) : Wire.WebRTCMessage :=
  {| Wire.type := "file"; Wire.messageId := "f1-chunk"; Wire.timestamp := 10;
     Wire.data :=
       {| Wire.content := None; Wire.dataType := None; Wire.fileId := Some "f1";
          Wire.chunkIndex := Some i;
          Wire.chunkData := [Z.of_nat i; (Z.of_nat i + 300)%Z];
          Wire.chunks := None; Wire.name := None; Wire.size := None;
          Wire.mimeType := None; Wire.preview := None |} |}.

Definition demoTurns : list ChatWindow.Turn :=
  [ChatWindow.Deliver (demoChunk 2); ChatWindow.Deliver (demoChunk 0); ChatWindow.Deliver (demoChunk 3);
   ChatWindow.Deliver (demoChunk 1); ChatWindow.Resume 0; ChatWindow.Deliver (demoChunk 2)].

(** The same deliveries, the duplicate arriving while the completing call
    is still suspended at its [await saveMessage]. *)
Definition demoTurnsEarlyDuplicate : list ChatWindow.Turn :=
  [ChatWindow.Deliver (demoChunk 2); ChatWindow.Deliver (demoChunk 0); ChatWindow.Deliver (demoChunk 3);
   ChatWindow.Deliver (demoChunk 1); ChatWindow.Deliver (demoChunk 2); ChatWindow.Resume 0; ChatWindow.Resume 0].

Definition demoState : ChatWindow.State :=
  {| ChatWindow.fileChunks := ∅; ChatWindow.suspended := [] |}.

(** A file one byte over the limit. *)
Definition hugeFile : ChatWindow.File :=
  {| ChatWindow.name := "movie.mp4"; ChatWindow.size := 10485761; ChatWindow.type := "video/mp4"; ChatWindow.bytes := [] |}.

Definition spoofed : Handshake.Message :=
  {| Handshake.type := "contact-info";
     Handshake.data := {| Handshake.peerId := Js.VString "X"; Handshake.displayName := Js.VString "Eve" |} |}.

(** The claimed id is there but empty: the test
    [message.data.peerId && message.data.peerId !== peerId] lets the
    envelope through, and the sender of the channel is added. *)
Definition emptyClaim : Handshake.Message :=
  {| Handshake.type := "contact-info";
     Handshake.data := {| Handshake.peerId := Js.VString ""; Handshake.displayName := Js.VString " Eve " |} |}.

Definition hello : Handshake.Message :=
  {| Handshake.type := "contact-info";
     Handshake.data :=
       {| Handshake.peerId := Js.VString "b2";
          Handshake.displayName := Js.VString "Bea" |} |}.

(** A manager on which nothing was registered for the peer ["b2"]. *)
Definition fresh : Manager.WebRTCManager Handshake.Message (list Handshake.Contact) :=
  Manager.create.

Definition staleConn : PeerJS.DataConnection :=
  {| PeerJS.peer := "b2"; PeerJS.connectionId := 0 |}.

Definition otherConn : PeerJS.DataConnection :=
  {| PeerJS.peer := "c3"; PeerJS.connectionId := 1 |}.

(** A manager holding a connection to ["b2"] that is no longer open, and
    one to ["c3"]. *)
Definition stale : Manager.WebRTCManager nat unit :=
  Manager.with_connections Manager.create (<["b2" := staleConn]> (<["c3" := otherConn]> ∅)).

(** A three-byte file and a manager with an open channel to ["b2"]. *)
Definition smallFile : ChatWindow.File :=
  {| ChatWindow.name := "a.txt"; ChatWindow.size := 3;
     ChatWindow.type := "text/plain"; ChatWindow.bytes := [104; 105; 33]%Z |}.

Definition connectedManager : Manager.WebRTCManager Wire.WebRTCMessage unit :=
  Manager.with_connections Manager.create (<["b2" := staleConn]> ∅).

(** The manager [stale] with an initialised [Peer]. *)
Definition staleWithPeer : Manager.WebRTCManager nat unit :=
  Manager.with_peer stale (Some {| PeerJS.channels := [] |}).

(** A stored contact, a manager that holds a record for its peer, and a
    manager with a [Peer] and no record. *)
Definition bea : Handshake.Contact :=
  {| Handshake.c_id := "c1"; Handshake.c_peerId := "b2"; Handshake.c_displayName := "Bea";
     Handshake.c_status := "offline"; Handshake.c_lastSeen := 0; Handshake.c_addedAt := 0;
     Handshake.c_unreadCount := 3 |}.

Definition beaApp : Provider.App :=
  {| Provider.connectionStatuses := ∅; Provider.contacts := [bea]; Provider.clock := 50 |}.

Definition linkedManager : Manager.WebRTCManager nat Provider.App :=
  Manager.with_connections Manager.create (<["b2" := staleConn]> ∅).

Definition readyManager : Manager.WebRTCManager nat Provider.App :=
  Manager.with_peer Manager.create (Some {| PeerJS.channels := [] |}).

(** The relay after ["a1"] registered on socket 1 and ["b2"] on socket 2,
    and a client that has ["a1"] among its contacts. *)
Definition twoRegistered : Relay.State :=
  (Relay.run Relay.init
     [Relay.EConnection 1; Relay.EConnection 2;
      Relay.EMessage 1 0 (Relay.Parsed (Relay.register "a1" None));
      Relay.EMessage 2 0 (Relay.Parsed (Relay.register "b2" None))]).1.



End Examples.

(* ===================================================================== *)
(** * Properties                                                          *)
(* ===================================================================== *)

Module JsFacts.
Import Js.

Section OrderedMap.
Context {V : Type}.
Implicit Types (k : string) (v : V) (m : list (string * V)).

Lemma mget_mset_eq k v m : mget k (mset k v m) = Some v.
Proof.
  induction m as [|[k' v'] r IH]; simpl.
  - by rewrite decide_True.
  - destruct (decide (k' = k)) as [->|Hne]; simpl.
    + by rewrite decide_True.
    + by rewrite decide_False.
Qed.

Lemma mget_mset_ne k k' v m : k ≠ k' → mget k' (mset k v m) = mget k' m.
Proof.
  intros Hne. induction m as [|[k0 v0] r IH]; simpl.
  - by rewrite decide_False.
  - destruct (decide (k0 = k)) as [->|Hne0]; simpl.
    + by rewrite !decide_False.
    + destruct (decide (k0 = k')); [done | apply IH].
Qed.

Lemma mget_mdelete_eq k m : mget k (mdelete k m) = None.
Proof.
  induction m as [|[k' v'] r IH]; simpl; [done|].
  destruct (decide (k' = k)) as [->|Hne]; simpl; [done|].
  by rewrite decide_False.
Qed.

Lemma mget_mdelete_ne k k' m : k ≠ k' → mget k' (mdelete k m) = mget k' m.
Proof.
  intros Hne. induction m as [|[k0 v0] r IH]; simpl; [done|].
  destruct (decide (k0 = k)) as [->|Hne0]; simpl.
  - by rewrite decide_False.
  - by rewrite IH.
Qed.

End OrderedMap.

Lemma truthy_string_spec s : truthy_string s = true ↔ s ≠ "".
Proof.
  unfold truthy_string. destruct (String.eqb_spec s ""); simpl; split; congruence.
Qed.

End JsFacts.

Module RelayFacts.
Import Relay.

Lemma unavailable_reachable st to :
  unavailable st to ↔ reachable st to = None.
Proof.
  unfold unavailable, reachable, is_open.
  destruct (Js.mget to (peers st)) as [t|]; [|done].
  case_bool_decide; split; intros; done.
Qed.

(** A [signal] frame for a target that cannot be reached is answered with
    the error and changes nothing. *)
Lemma signal_unavailable_error st s now to from d :
  unavailable st to →
  onMessage st s now (Parsed (signal to from d))
  = (st, [(s, error "Target peer not available")]).
Proof.
  intros Hun%unavailable_reachable. simpl. by rewrite Hun.
Qed.

(** None of the four forwarding kinds is queued or forwarded when the
    target cannot be reached: the registry is as before and whatever is
    sent goes back to the sender. *)
Lemma unavailable_not_forwarded st s now m to :
  Forwarding m to → unavailable st to →
  (onMessage st s now (Parsed m)).1 = st ∧
  ∀ s' r, (s', r) ∈ (onMessage st s now (Parsed m)).2 →
          s' = s ∧ r = error "Target peer not available".
Proof.
  intros Hfw Hun%unavailable_reachable.
  destruct Hfw; simpl; rewrite Hun; simpl; split; try done;
    intros s' r Hin; try by apply elem_of_nil in Hin.
  apply list_elem_of_singleton in Hin. by simplify_eq.
Qed.

(** Last registration wins: after ["A"] registered on socket 1 and then on
    socket 2, a [signal] for ["A"] goes to socket 2 and socket 1 gets
    nothing more. *)
Example second_registration_wins :
  (run init [EConnection 1; EConnection 2; EConnection 3;
             EMessage 1 0 (Parsed (register "A" None));
             EMessage 2 0 (Parsed (register "A" None));
             EMessage 3 0 (Parsed (signal "A" "B" "sdp"))]).2
  = [(1, registered "A"); (2, registered "A"); (2, fwd_signal "B" "sdp")].
Proof. by vm_compute. Qed.

(** C2, as the code has it: an [offer], [answer] or [ice-candidate] frame
    whose target is not registered, or whose registered socket is not open,
    is dropped without any reply: the relay sends nothing at all, so the
    sender gets no [error] message, and the registry is unchanged.  Only
    [signal] is answered with the error. *)
Theorem unavailable_target_dropped_silently st s now m to :
  Forwarding m to → (∀ from d, m ≠ signal to from d) → unavailable st to →
  onMessage st s now (Parsed m) = (st, []).
Proof.
  intros Hfw Hns Hun%unavailable_reachable.
  destruct Hfw; simpl; rewrite ?Hun; try done.
  by destruct (Hns from d).
Qed.

Lemma unavailable_target_dropped_silently_witness :
  onMessage init 1 0 (Parsed (offer "ghost" "a1" "sdp" "audio")) = (init, []).
Proof.
  apply (unavailable_target_dropped_silently init 1 0 _ "ghost").
  - constructor.
  - intros from d; discriminate.
  - exact I.
Defined.




(** ** Further properties of the relay *)

Lemma mget_elem_of {V} k (v : V) m : Js.mget k m = Some v → (k, v) ∈ m.
Proof.
  induction m as [|[k' v'] r IH]; simpl; [done|].
  case_decide; intros; simplify_eq; [left | right; auto].
Qed.

Lemma mset_keys {V} k (v : V) m :
  (Js.mset k v m).*1 = if decide (k ∈ m.*1) then m.*1 else m.*1 ++ [k].
Proof.
  induction m as [|[k' v'] r IH]; [done|].
  cbn [Js.mset]. destruct (decide (k' = k)) as [->|Hne]; rewrite !fmap_cons; cbn [fst].
  - by rewrite decide_True by left.
  - rewrite IH. destruct (decide (k ∈ r.*1)) as [Hin|Hin].
    + by rewrite decide_True by (by right).
    + rewrite decide_False; [done|]. by intros [?|?]%elem_of_cons.
Qed.

Lemma mset_elem_of {V} k (v : V) m k' v' :
  (k', v') ∈ Js.mset k v m → (k' = k ∧ v' = v) ∨ (k', v') ∈ m.
Proof.
  induction m as [|[k0 v0] r IH]; simpl.
  - intros Hin%list_elem_of_singleton. simplify_eq. by left.
  - destruct (decide (k0 = k)) as [->|Hne].
    + intros [?|?]%elem_of_cons; simplify_eq; [by left | right; by right].
    + intros [?|Hin]%elem_of_cons; simplify_eq; [right; by left|].
      destruct (IH Hin) as [?|?]; [by left | right; by right].
Qed.

Lemma mdelete_sublist {V} k (m : list (string * V)) : Js.mdelete k m `sublist_of` m.
Proof.
  induction m as [|[k' v'] r IH]; simpl; [done|].
  case_decide; by constructor.
Qed.

Lemma registry_ok_step st e : registry_ok st → registry_ok (step st e).1.
Proof.
  intros [Hnd Hkey]. destruct e as [s|s now f|s now]; simpl; [done| |].
  - destruct f as [m|]; [|done].
    destruct m; simpl; try done;
      try (by destruct (reachable st to)).
    split; simpl.
    + rewrite mset_keys. case_decide; [done|].
      apply NoDup_app. split; [done|]. split; [|apply NoDup_singleton].
      intros x Hx ->%list_elem_of_singleton. done.
    + intros k pc [[-> ->]|Hin]%mset_elem_of; [done | by apply Hkey].
  - unfold onClose. destruct (current_truthy _ s) as [p|]; [|done]. simpl.
    pose proof (mdelete_sublist p (peers st)) as Hsub. split; simpl.
    + eapply sublist_NoDup; [exact Hnd | by apply fmap_sublist].
    + intros k pc Hin. apply Hkey. by eapply sublist_subseteq.
Qed.

(** X1.  Last registration wins.  After a [register] frame for [p] on
    socket [s], whatever the registry held before, [p] is bound to [s], every
    other id is bound as before, the only reply is [registered] to [s]; and
    if [s] is open, a [signal] for [p] from any socket is then forwarded to
    [s] and to nobody else. *)
Theorem register_binds_last st s now p dn s2 now2 from d :
  let r := onMessage st s now (Parsed (register p dn)) in
  Js.mget p (peers r.1) = Some {| peerId := p; ws := s; displayName := dn |} ∧
  (∀ q, q ≠ p → Js.mget q (peers r.1) = Js.mget q (peers st)) ∧
  r.2 = [(s, registered p)] ∧
  (readyState st s = OPEN →
   onMessage r.1 s2 now2 (Parsed (signal p from d)) = (r.1, [(s, fwd_signal from d)])).
Proof.
  simpl. split; [apply JsFacts.mget_mset_eq|].
  split; [intros q Hq; by apply JsFacts.mget_mset_ne|].
  split; [done|]. intros Hopen.
  unfold reachable, is_open. simpl. rewrite JsFacts.mget_mset_eq. simpl.
  by rewrite bool_decide_eq_true_2.
Qed.

(** X2.  The relay keeps nothing of what it routes: a frame that is not a
    [register] (a forwarded frame, a status update, a ping, an unknown type,
    text that does not parse) leaves the registry, the sockets' ids and the
    ready states exactly as they were. *)
Theorem only_register_changes_state st s now f :
  (∀ p dn, f ≠ Parsed (register p dn)) →
  (onMessage st s now f).1 = st.
Proof.
  intros Hf. destruct f as [m|]; [|done].
  destruct m; simpl; try done; try (by destruct (reachable st to)).
  by destruct (Hf peerId0 displayName0).
Qed.

Lemma only_register_changes_state_witness :
  (onMessage init 1 0 Malformed).1 = init ∧
  (onMessage init 1 0 (Parsed (status_update "online"))).1 = init.
Proof.
  split; apply only_register_changes_state; intros p dn; discriminate.
Defined.

(** X3.  In every state the relay reaches from its start, through any
    sequence of connections, frames and closes, the registry holds each id
    at most once and every entry sits under the [peerId] it carries. *)
Theorem registry_always_ok (es : list Event) : registry_ok (run init es).1.
Proof.
  assert (∀ st, registry_ok st → registry_ok (run st es).1) as Hrun.
  { induction es as [|e es IH]; intros st Hok; simpl; [done|].
    pose proof (registry_ok_step st e Hok) as Hstep.
    destruct (step st e) as [st1 out1]. specialize (IH st1 Hstep).
    by destruct (run st1 es). }
  apply Hrun. split; [constructor | by intros k pc Hin; apply elem_of_nil in Hin].
Qed.

(** X4.  A socket that registers under a second id keeps its first id bound
    too, and its close removes only the id it registered last: after [s]
    registered [P], then [Q], and closed, the entry of [Q] is gone but [P] is
    still bound to the closed socket [s]. *)
Theorem earlier_id_outlives_close st s P Q dnP dnQ now :
  P ≠ Q → Q ≠ "" →
  let st' := (run st [EMessage s now (Parsed (register P dnP));
                      EMessage s now (Parsed (register Q dnQ));
                      EClose s now]).1 in
  Js.mget P (peers st') = Some {| peerId := P; ws := s; displayName := dnP |} ∧
  Js.mget Q (peers st') = None ∧
  readyState st' s = CLOSED ∧
  unavailable st' P.
Proof.
  intros HPQ HQ. simpl. unfold onClose, current_truthy. simpl.
  rewrite lookup_insert_eq.
  apply JsFacts.truthy_string_spec in HQ. rewrite HQ. simpl.
  assert (Js.mget P (Js.mdelete Q (Js.mset Q {| peerId := Q; ws := s; displayName := dnQ |}
            (Js.mset P {| peerId := P; ws := s; displayName := dnP |} (peers st))))
          = Some {| peerId := P; ws := s; displayName := dnP |}) as HP.
  { rewrite JsFacts.mget_mdelete_ne by done.
    rewrite JsFacts.mget_mset_ne by done. apply JsFacts.mget_mset_eq. }
  split; [done|]. split; [apply JsFacts.mget_mdelete_eq|].
  split; [by rewrite decide_True|].
  unfold unavailable. simpl. rewrite HP. simpl. by rewrite decide_True.
Qed.

Lemma earlier_id_outlives_close_witness :
  Js.mget "p1" (peers (run init [EMessage 1 0 (Parsed (register "p1" None));
                                 EMessage 1 0 (Parsed (register "q1" None));
                                 EClose 1 0]).1)
  = Some {| peerId := "p1"; ws := 1; displayName := None |}.
Proof.
  apply (earlier_id_outlives_close init 1 "p1" "q1" None None 0); discriminate.
Defined.

(** X5.  Once the socket on which a (non-empty) id is currently registered
    has closed, a [signal] for that id from any socket is answered with the
    error and forwarded to nobody. *)
Theorem signal_after_close_is_refused st s P now s2 now2 from d :
  currentPeerId st !! s = Some P → P ≠ "" →
  let st' := (step st (EClose s now)).1 in
  onMessage st' s2 now2 (Parsed (signal P from d))
  = (st', [(s2, error "Target peer not available")]).
Proof.
  intros Hcur HP. simpl. unfold onClose, current_truthy. simpl. rewrite Hcur.
  apply JsFacts.truthy_string_spec in HP. rewrite HP. simpl.
  unfold reachable. simpl. by rewrite JsFacts.mget_mdelete_eq.
Qed.

Lemma signal_after_close_is_refused_witness :
  currentPeerId (run init [EConnection 1; EMessage 1 0 (Parsed (register "a1" None))]).1 !! 1
  = Some "a1" ∧
  (onMessage
     (step (run init [EConnection 1; EMessage 1 0 (Parsed (register "a1" None))]).1
           (EClose 1 5)).1
     2 6 (Parsed (signal "a1" "b2" "sdp"))).2
  = [(2, error "Target peer not available")].
Proof.
  split; [by vm_compute|].
  by rewrite (signal_after_close_is_refused
                (run init [EConnection 1; EMessage 1 0 (Parsed (register "a1" None))]).1
                1 "a1" 5 2 6 "b2" "sdp" eq_refl ltac:(discriminate)).
Defined.

(** X29.  The relay never sends on a socket that is not open, except to
    answer the sender of the frame it is handling: every [send] of a step
    goes to a socket whose ready state is [OPEN], or is a reply to the socket
    the frame came from. *)
Theorem relay_sends_to_open_sockets_or_sender st e s reply :
  (s, reply) ∈ (step st e).2 →
  readyState (step st e).1 s = OPEN ∨ ∃ now f, e = EMessage s now f.
Proof.
  destruct e as [s0|s0 now f|s0 now]; simpl.
  - by intros ?%elem_of_nil.
  - intros Hin. destruct f as [m|].
    2:{ apply list_elem_of_singleton in Hin. simplify_eq. right. eauto. }
    assert (∀ to (fwd : Reply) (miss : list (Sock * Reply)),
              (∀ x, x ∈ miss → x.1 = s0) →
              (s, reply) ∈ (match reachable st to with
                            | Some target => (st, [(ws target, fwd)])
                            | None => (st, miss)
                            end).2 →
              readyState st s = OPEN ∨ s = s0) as Hfw.
    { intros to fwd miss Hmiss. unfold reachable, is_open.
      destruct (Js.mget to (peers st)) as [target|]; [|intros H; right; by apply (Hmiss _ H)].
      case_bool_decide as Ho; [|intros H; right; by apply (Hmiss _ H)].
      simpl. intros H%list_elem_of_singleton. simplify_eq. by left. }
    assert (∀ x : Sock * Reply, x ∈ [] → x.1 = s0) as Hnil by (by intros x ?%elem_of_nil).
    destruct m; simpl in Hin.
    + apply list_elem_of_singleton in Hin. simplify_eq. right. eauto.
    + destruct (Hfw to (fwd_signal from signalData) [(s0, error "Target peer not available")])
        as [?| ->]; [by intros x ->%list_elem_of_singleton| | |].
      * exact Hin.
      * left. simpl. by destruct (reachable st to).
      * right. eauto.
    + destruct (Hfw to (fwd_offer from offer0 callType) []) as [?| ->]; [done| | |].
      * exact Hin.
      * left. simpl. by destruct (reachable st to).
      * right. eauto.
    + destruct (Hfw to (fwd_answer from answer0) []) as [?| ->]; [done| | |].
      * exact Hin.
      * left. simpl. by destruct (reachable st to).
      * right. eauto.
    + destruct (Hfw to (fwd_ice_candidate from candidate) []) as [?| ->]; [done| | |].
      * exact Hin.
      * left. simpl. by destruct (reachable st to).
      * right. eauto.
    + apply list_elem_of_fmap in Hin as (x & Heq & [[_ Ho] _]%list_elem_of_filter).
      simplify_eq. by left.
    + apply list_elem_of_singleton in Hin. simplify_eq. right. eauto.
    + by apply elem_of_nil in Hin.
  - unfold onClose. destruct (current_truthy _ s0) as [p|]; simpl; [|by intros ?%elem_of_nil].
    intros (x & Heq & [Ho _]%list_elem_of_filter)%list_elem_of_fmap.
    simplify_eq. by left.
Qed.

Lemma relay_sends_to_open_sockets_or_sender_witness :
  readyState (step Examples.twoRegistered (EMessage 1 7 (Parsed (status_update "online")))).1 2 = OPEN
  ∨ ∃ now f, EMessage 1 7 (Parsed (status_update "online")) = EMessage 2 now f.
Proof.
  apply (relay_sends_to_open_sockets_or_sender Examples.twoRegistered
           (EMessage 1 7 (Parsed (status_update "online"))) 2
           (peer_status (Some "a1") "online" 7)).
  apply list_elem_of_In. vm_compute. tauto.
Defined.

End RelayFacts.

Module ManagerFacts.
Import Manager Examples.

Section Facts.
Context {Msg App : Type}.
Implicit Types (m : WebRTCManager Msg App) (T : Transport Msg) (app : App).

Lemma with_connections_same m : with_connections m (connections m) = m.
Proof. by destruct m. Qed.

Lemma keyed_one_record m : keyed m → one_record_per_peer m.
Proof.
  intros Hk k1 k2 c1 c2 H1 H2 Heq.
  pose proof (Hk _ _ H1). pose proof (Hk _ _ H2).
  assert (k1 = k2) as -> by congruence.
  split; [done | congruence].
Qed.

Lemma keyed_insert m conn :
  keyed m → keyed (with_connections m (<[PeerJS.peer conn := conn]> (connections m))).
Proof.
  intros Hk k c. simpl. rewrite lookup_insert. case_decide; [|by apply Hk].
  intros; by simplify_eq.
Qed.

Lemma keyed_delete m k0 :
  keyed m → keyed (with_connections m (delete k0 (connections m))).
Proof.
  intros Hk k c. simpl. rewrite lookup_delete. case_decide; [done | by apply Hk].
Qed.

Lemma keyed_setupConnection m conn : keyed m → keyed (setupConnection m conn).
Proof.
  intros Hk. unfold setupConnection. case_decide; [done | by apply keyed_insert].
Qed.

Lemma connectToPeer_present T m contact app :
  is_Some (connections m !! peerId contact) →
  connectToPeer T m contact app = (m, app, Resolved).
Proof. intros Hin. unfold connectToPeer. by rewrite decide_True. Qed.

(** After a call that found no entry, either nothing was stored and no
    channel was requested, or exactly one channel was requested and stored
    under the contact's peer id. *)
Lemma connectToPeer_absent T m contact app :
  connections m !! peerId contact = None →
  let r := connectToPeer T m contact app in
  (r.1.1 = m ∧ r.2 = Rejected) ∨
  (is_Some (connections r.1.1 !! peerId contact) ∧ issued r.1.1 = S (issued m) ∧
   r.2 = Pending ∧
   ∀ k, k ≠ peerId contact → connections r.1.1 !! k = connections m !! k).
Proof.
  intros Hno. unfold connectToPeer.
  rewrite decide_False by (rewrite Hno; by intros [? ?]).
  destruct (peer m) as [p|] eqn:Hp; [|by left].
  destruct (connect_throws T p (peerId contact)); [by left|].
  right. simpl. unfold setupConnection. simpl.
  rewrite decide_False by (rewrite Hno; by intros [? ?]). simpl.
  rewrite lookup_insert_eq. unfold issued. rewrite Hp. simpl.
  repeat split; [by eexists|].
  intros k Hk. by rewrite !lookup_insert_ne.
Qed.

Lemma keyed_connectToPeer T m contact app :
  keyed m → keyed (connectToPeer T m contact app).1.1.
Proof.
  intros Hk. unfold connectToPeer.
  case_decide; [done|].
  destruct (peer m) as [p|]; [|done].
  destruct (connect_throws T p (peerId contact)); [done|].
  simpl.
  set (conn := {| PeerJS.peer := peerId contact;
                  PeerJS.connectionId := length (PeerJS.channels p) |}).
  apply (keyed_insert (setupConnection _ conn) conn).
  apply keyed_setupConnection. intros k c. simpl. apply Hk.
Qed.

Lemma sendMessage_cases T m peerId message :
  sendMessage T m peerId message = Normal (true, m) ∨
  sendMessage T m peerId message
  = Normal (false, with_connections m (delete peerId (connections m))).
Proof.
  unfold sendMessage, conn_send.
  destruct (connections m !! peerId) as [conn|] eqn:Hc.
  - destruct (conn_open T conn); [|by right].
    destruct (send_throws T conn message); simpl; [by right | by left].
  - right. rewrite delete_id by done. by rewrite with_connections_same.
Qed.

Lemma keyed_apply m app op : keyed m → keyed (apply m app op).1.
Proof.
  intros Hk. destruct op; simpl.
  - intros k c. simpl. apply Hk.
  - intros k c. simpl. by rewrite lookup_empty.
  - pose proof (keyed_connectToPeer T m contact app Hk) as H.
    by destruct (connectToPeer T m contact app) as [[m' app'] r].
  - by apply keyed_setupConnection.
  - by apply keyed_delete.
  - destruct (sendMessage_cases T m peerId0 message) as [-> | ->]; simpl;
      [done | by apply keyed_delete].
  - unfold disconnect. destruct (connections m !! peerId0); [by apply keyed_delete | done].
  - intros k c. simpl. apply Hk.
  - intros k c. simpl. apply Hk.
Qed.

Lemma keyed_run ops : ∀ m app, keyed m → keyed (run m app ops).1.
Proof.
  unfold run. induction ops as [|op ops IH]; intros m app Hk; simpl; [done|].
  pose proof (keyed_apply m app op Hk).
  destruct (apply m app op) as [m' app']. by apply IH.
Qed.

Lemma connectRepeatedly_present Ts : ∀ m contact app,
  is_Some (connections m !! peerId contact) →
  connectRepeatedly Ts m contact app = (m, app).
Proof.
  induction Ts as [|T Ts IH]; intros m contact app Hin; simpl; [done|].
  rewrite connectToPeer_present by done. by apply IH.
Qed.

Lemma connectRepeatedly_issued Ts : ∀ m contact app,
  issued (connectRepeatedly Ts m contact app).1 ≤ S (issued m).
Proof.
  induction Ts as [|T Ts IH]; intros m contact app; simpl; [lia|].
  destruct (connections m !! peerId contact) as [c|] eqn:Hc.
  - rewrite connectToPeer_present by (rewrite Hc; by eexists).
    rewrite connectRepeatedly_present by (rewrite Hc; by eexists). simpl. lia.
  - pose proof (connectToPeer_absent T m contact app Hc) as H.
    destruct (connectToPeer T m contact app) as [[m' app'] r]. simpl in H.
    destruct H as [[-> _] | (Hin & Hiss & _)]; [apply IH|].
    rewrite connectRepeatedly_present by done. simpl. lia.
Qed.

Lemma keyed_connectRepeatedly Ts : ∀ m contact app,
  keyed m → keyed (connectRepeatedly Ts m contact app).1.
Proof.
  induction Ts as [|T Ts IH]; intros m contact app Hk; simpl; [done|].
  pose proof (keyed_connectToPeer T m contact app Hk) as H.
  destruct (connectToPeer T m contact app) as [[m' app'] r]. by apply IH.
Qed.

(** C4: in every state the manager can reach, each remote peer id has at
    most one record in the connection map; a [connectToPeer] call for an id
    that has an entry resolves at once and leaves the manager, the library
    and the application as they were (no new channel); and however often
    [connectToPeer] is repeated for one contact, the library hands out at
    most one channel and the map still has at most one record per id. *)
Theorem connectToPeer_one_record (ops : list (Op Msg App)) (app0 : App) :
  let m := (run create app0 ops).1 in
  one_record_per_peer m ∧
  (∀ T contact app, is_Some (connections m !! peerId contact) →
     connectToPeer T m contact app = (m, app, Resolved)) ∧
  (∀ Ts contact app,
     issued (connectRepeatedly Ts m contact app).1 ≤ S (issued m) ∧
     one_record_per_peer (connectRepeatedly Ts m contact app).1).
Proof.
  intros m.
  assert (keyed m) as Hk.
  { apply keyed_run. intros k c. simpl. by rewrite lookup_empty. }
  split; [by apply keyed_one_record|].
  split; [intros; by apply connectToPeer_present|].
  intros Ts contact app. split; [apply connectRepeatedly_issued|].
  by apply keyed_one_record, keyed_connectRepeatedly.
Qed.

(** C6: [sendMessage] for a peer id that has no entry, or whose entry is a
    connection that is not open, returns [false]; no exception leaves the
    call, nothing is handed to the connection and nothing is kept for a
    later retry: the only change is that the stale entry, if any, is gone. *)
Theorem sendMessage_no_open_channel T m peerId message :
  (connections m !! peerId = None ∨
   ∃ conn, connections m !! peerId = Some conn ∧ conn_open T conn = false) →
  sendMessage T m peerId message
  = Normal (false, with_connections m (delete peerId (connections m))).
Proof.
  intros [Hno | (conn & Hc & Hopen)]; unfold sendMessage.
  - rewrite Hno. rewrite delete_id by done. by rewrite with_connections_same.
  - by rewrite Hc, Hopen.
Qed.

(** C10: for a peer id that has an entry, [sendMessage] returns [false]
    when the connection is not open and when [conn.send] throws (the
    exception is caught), and [true] when the connection is open and
    [conn.send] returns; no exception leaves the call.  Whenever it returns
    [false] the entry of that peer id is gone from the map and every other
    entry, like the rest of the manager, is as before; whenever it returns
    [true] the manager is unchanged. *)
Theorem sendMessage_frame T m peerId message :
  (∀ conn, connections m !! peerId = Some conn →
     conn_open T conn = false ∨ send_throws T conn message = true →
     sendMessage T m peerId message
     = Normal (false, with_connections m (delete peerId (connections m)))) ∧
  (∀ conn, connections m !! peerId = Some conn →
     conn_open T conn = true → send_throws T conn message = false →
     sendMessage T m peerId message = Normal (true, m)) ∧
  sendMessage T m peerId message ≠ Abrupt ∧
  (∀ sent m', sendMessage T m peerId message = Normal (sent, m') →
     (sent = true → m' = m) ∧
     (sent = false →
        connections m' !! peerId = None ∧
        (∀ other, other ≠ peerId → connections m' !! other = connections m !! other) ∧
        peer m' = peer m ∧ messageHandlers m' = messageHandlers m ∧
        statusHandlers m' = statusHandlers m)).
Proof.
  split; [|split; [|split]].
  - intros conn Hc Hbad. unfold sendMessage, conn_send. rewrite Hc.
    destruct (conn_open T conn); [|done].
    destruct Hbad as [?|Hthrow]; [done|]. by rewrite Hthrow.
  - intros conn Hc Ho Hok. unfold sendMessage, conn_send. by rewrite Hc, Ho, Hok.
  - by destruct (sendMessage_cases T m peerId message) as [-> | ->].
  - intros sent m' Hs.
    destruct (sendMessage_cases T m peerId message) as [H | H];
      rewrite H in Hs; simplify_eq; split; try done.
    intros _. simpl. rewrite lookup_delete_eq. repeat split.
    intros other Hne. by rewrite lookup_delete_ne.
Qed.

(** With a handler registered for the peer, that handler, and nothing
    else, is handed the decoded envelope. *)
Lemma handlePeerData_with_handler T m peerId message handler app :
  messageHandlers m !! peerId = Some handler →
  handlePeerData T m peerId (inr message) app = handler message app.
Proof. intros Hh. unfold handlePeerData. by rewrite Hh. Qed.

(** C3, as the code has it: [handlePeerData] hands an inbound envelope to
    the handler registered for that peer and to nothing else; when the peer
    has no handler, no callback runs and the application state is as it
    was.  The manager keeps no list of global handlers. *)
Theorem handlePeerData_without_handler T m peerId data app :
  messageHandlers m !! peerId = None →
  handlePeerData T m peerId data app = app.
Proof.
  intros Hno. unfold handlePeerData.
  destruct data as [text | message]; [destruct (JSON_parse T text)|];
    by rewrite ?Hno.
Qed.

End Facts.



Lemma handlePeerData_without_handler_witness :
  handlePeerData anyTransport fresh "b2" (inr hello) [] = [] ∧
  (Handshake.onContactInfo "a1" 0 [] "b2" hello "id1" 5).1 ≠ [].
Proof.
  split; [|by vm_compute].
  apply handlePeerData_without_handler. apply lookup_empty.
Defined.

Lemma sendMessage_no_open_channel_witness :
  sendMessage closedTransport stale "b2" 7
  = Normal (false, with_connections stale (delete "b2" (connections stale))).
Proof.
  apply sendMessage_no_open_channel.
  right. exists staleConn. split; [apply lookup_insert_eq | reflexivity].
Defined.

Lemma sendMessage_frame_witness :
  sendMessage closedTransport stale "b2" 7
  = Normal (false, with_connections stale (delete "b2" (connections stale))) ∧
  sendMessage throwingTransport stale "b2" 7
  = Normal (false, with_connections stale (delete "b2" (connections stale))) ∧
  sendMessage anyTransport stale "b2" 7 = Normal (true, stale) ∧
  connections (with_connections stale (delete "b2" (connections stale))) !! "b2" = None ∧
  connections (with_connections stale (delete "b2" (connections stale))) !! "c3"
  = Some otherConn.
Proof.
  assert (connections stale !! "b2" = Some staleConn) as Hc by apply lookup_insert_eq.
  destruct (sendMessage_frame closedTransport stale "b2" 7) as (Hclosed & _ & _ & Hframe).
  destruct (sendMessage_frame throwingTransport stale "b2" 7) as (Hthrows & _).
  destruct (sendMessage_frame anyTransport stale "b2" 7) as (_ & Hok & _).
  specialize (Hclosed staleConn Hc (or_introl eq_refl)).
  specialize (Hthrows staleConn Hc (or_intror eq_refl)).
  specialize (Hok staleConn Hc eq_refl eq_refl).
  destruct (Hframe _ _ Hclosed) as [_ Hfalse].
  destruct (Hfalse eq_refl) as (Hgone & Hothers & _).
  split; [exact Hclosed|]. split; [exact Hthrows|]. split; [exact Hok|].
  split; [exact Hgone|]. rewrite Hothers by discriminate. by vm_compute.
Defined.

(** ** Further properties of the manager *)

Section MoreFacts.
Context {Msg App : Type}.
Implicit Types (m : WebRTCManager Msg App) (T : Transport Msg) (app : App).

Lemma connectToPeer_fresh T m contact app p :
  connections m !! peerId contact = None → peer m = Some p →
  connect_throws T p (peerId contact) = false →
  let r := connectToPeer T m contact app in
  r.2 = Pending ∧
  connections r.1.1 !! peerId contact
  = Some {| PeerJS.peer := peerId contact;
            PeerJS.connectionId := length (PeerJS.channels p) |} ∧
  issued r.1.1 = S (issued m) ∧
  r.1.2 = notifyStatus m (id contact) connecting app.
Proof.
  intros Hno Hp Hok. unfold connectToPeer.
  rewrite decide_False by (rewrite Hno; by intros [? ?]).
  rewrite Hp, Hok. simpl. unfold setupConnection. simpl.
  rewrite decide_False by (rewrite Hno; by intros [? ?]). simpl.
  rewrite lookup_insert_eq. unfold issued. rewrite Hp. done.
Qed.

(** [sendMessage] returns [true] exactly when the map has a record for
    the peer, that connection is open and [conn.send] does not throw; the
    manager is then unchanged. *)
Lemma sendMessage_true_iff T m peerId message :
  (∃ m', sendMessage T m peerId message = Normal (true, m')) ↔
  (sendMessage T m peerId message = Normal (true, m) ∧
   ∃ conn, connections m !! peerId = Some conn ∧ conn_open T conn = true ∧
           send_throws T conn message = false).
Proof.
  split; [|intros [H _]; eauto].
  intros [m' H]. unfold sendMessage, conn_send in *.
  destruct (connections m !! peerId) as [conn|]; [|done].
  destruct (conn_open T conn) eqn:Ho; [|done].
  destruct (send_throws T conn message) eqn:Hs; simpl in *; [done|].
  split; [done|]. by exists conn.
Qed.

(** X6.  A message for a peer only ever goes out on a channel to that
    peer: in every state the manager can reach, [sendMessage] returns [true]
    exactly when the map has a record for the peer whose connection is open
    and whose [send] does not throw, and the remote end of that connection
    is the peer the message is for; the manager is then unchanged. *)
Theorem sendMessage_uses_the_peers_channel (ops : list (Op Msg App)) (app0 : App) T
    peerId message :
  let m := (run create app0 ops).1 in
  (∃ m', sendMessage T m peerId message = Normal (true, m')) ↔
  (sendMessage T m peerId message = Normal (true, m) ∧
   ∃ conn, connections m !! peerId = Some conn ∧ PeerJS.peer conn = peerId ∧
           conn_open T conn = true ∧ send_throws T conn message = false).
Proof.
  intros m.
  assert (keyed m) as Hk.
  { apply keyed_run. intros k c. simpl. by rewrite lookup_empty. }
  rewrite sendMessage_true_iff. split.
  - intros [Hs (conn & Hc & Ho & Ht)]. split; [done|]. exists conn.
    split; [done|]. split; [by apply Hk | done].
  - intros [Hs (conn & Hc & _ & Ho & Ht)]. split; [done|]. by exists conn.
Qed.

(** X7.  The per-peer handler is the one registered last: after two
    [onMessage] calls for the same peer only the second handler is handed
    the peer's envelopes; a registration for one peer does not change what
    happens to the envelopes of another; and text that does not parse
    reaches no handler. *)
Theorem onMessage_last_wins T m peerId h1 h2 message app :
  handlePeerData T (onMessage (onMessage m peerId h1) peerId h2) peerId (inr message) app
  = h2 message app ∧
  (∀ other data, other ≠ peerId →
     handlePeerData T (onMessage m peerId h2) other data app
     = handlePeerData T m other data app) ∧
  (∀ text, JSON_parse T text = None →
     handlePeerData T (onMessage m peerId h2) peerId (inl text) app = app).
Proof.
  unfold handlePeerData. simpl. split; [by rewrite lookup_insert_eq|]. split.
  - intros other data Hne. by rewrite lookup_insert_ne.
  - intros text Hbad. by rewrite Hbad.
Qed.

(** X8.  A failed [sendMessage] makes room for a new channel: the next
    [connectToPeer] for that peer (with a [Peer] instance whose [connect]
    works) does not resolve at once but asks the library for a fresh channel,
    stores it and reports [connecting]. *)
Theorem connect_after_failed_send T T' m contact message m' app p :
  sendMessage T m (peerId contact) message = Normal (false, m') →
  peer m = Some p → connect_throws T' p (peerId contact) = false →
  let r := connectToPeer T' m' contact app in
  r.2 = Pending ∧ is_Some (connections r.1.1 !! peerId contact) ∧
  issued r.1.1 = S (issued m).
Proof.
  intros Hs Hp Hok.
  destruct (sendMessage_cases T m (peerId contact) message) as [H|H];
    rewrite H in Hs; simplify_eq.
  assert (connections (with_connections m (delete (peerId contact) (connections m)))
            !! peerId contact = None) as Hno by apply lookup_delete_eq.
  destruct (connectToPeer_fresh T' _ contact app p Hno Hp Hok) as (H1 & H2 & H3 & _).
  cbv zeta. rewrite H1, H2. split; [done|]. split; [by eexists|]. exact H3.
Qed.

(** X9.  The [close] listener of a connection deletes the record of its
    remote id, whichever connection that record holds by then: after
    [disconnect] and a new [connectToPeer] for the same peer, the late
    [close] of the old connection removes the record of the new one. *)
Theorem late_close_drops_new_record T m contact app old p :
  peer m = Some p → connect_throws T p (peerId contact) = false →
  connections m !! peerId contact = Some old → PeerJS.peer old = peerId contact →
  let r := connectToPeer T (disconnect m (peerId contact)) contact app in
  r.2 = Pending ∧
  connections r.1.1 !! peerId contact
  = Some {| PeerJS.peer := peerId contact;
            PeerJS.connectionId := length (PeerJS.channels p) |} ∧
  connections (connClose r.1.1 old) !! peerId contact = None.
Proof.
  intros Hp Hok Hold Hpeer. unfold disconnect. rewrite Hold.
  assert (connections (with_connections m (delete (peerId contact) (connections m)))
            !! peerId contact = None) as Hno by apply lookup_delete_eq.
  destruct (connectToPeer_fresh T _ contact app p Hno Hp Hok) as (H1 & H2 & _).
  cbv zeta. split; [done|]. split; [done|].
  unfold connClose. simpl. rewrite Hpeer. apply lookup_delete_eq.
Qed.

(** X10.  [ensureConnection] returns [true] at once only for a record that
    is open, and then changes nothing.  Otherwise it never reuses the record
    it found: the [connectToPeer] it awaits never takes the
    already-connected shortcut, and afterwards the map holds for that peer
    either nothing (the promise is rejected) or a channel the library has
    just handed out. *)
Theorem ensureConnection_never_reuses_stale T m contact app :
  let r := ensureConnectionStart T m contact app in
  match r.2 with
  | EnsuredOpen =>
      r.1.1 = m ∧ r.1.2 = app ∧
      ∃ conn, connections m !! peerId contact = Some conn ∧ conn_open T conn = true
  | Awaiting promise =>
      promise ≠ Resolved ∧
      (promise = Rejected →
         connections r.1.1 !! peerId contact = None ∧ issued r.1.1 = issued m) ∧
      (promise = Pending →
         ∃ p, peer m = Some p ∧ issued r.1.1 = S (issued m) ∧
              connections r.1.1 !! peerId contact
              = Some {| PeerJS.peer := peerId contact;
                        PeerJS.connectionId := length (PeerJS.channels p) |})
  end.
Proof.
  unfold ensureConnectionStart.
  set (m0 := with_connections m (delete (peerId contact) (connections m))).
  assert (∀ m1, connections m1 !! peerId contact = None → peer m1 = peer m →
            issued m1 = issued m →
            let r := connectToPeer T m1 contact app in
            r.2 ≠ Resolved ∧
            (r.2 = Rejected →
               connections r.1.1 !! peerId contact = None ∧ issued r.1.1 = issued m) ∧
            (r.2 = Pending →
               ∃ p, peer m = Some p ∧ issued r.1.1 = S (issued m) ∧
                    connections r.1.1 !! peerId contact
                    = Some {| PeerJS.peer := peerId contact;
                              PeerJS.connectionId := length (PeerJS.channels p) |})) as Hgo.
  { intros m1 Hno Hpeer Hiss.
    destruct (peer m1) as [p|] eqn:Hp.
    - destruct (connect_throws T p (peerId contact)) eqn:Hthrow.
      + unfold connectToPeer.
        rewrite decide_False by (rewrite Hno; by intros [? ?]).
        rewrite Hp, Hthrow. simpl. by repeat split.
      + destruct (connectToPeer_fresh T m1 contact app p Hno Hp Hthrow)
          as (H1 & H2 & H3 & _).
        cbv zeta. rewrite H1. split; [done|]. split; [done|].
        intros _. exists p. rewrite <- Hpeer, H3, Hiss. done.
    - unfold connectToPeer.
      rewrite decide_False by (rewrite Hno; by intros [? ?]).
      rewrite Hp. simpl. by repeat split. }
  destruct (connections m !! peerId contact) as [conn|] eqn:Hc.
  - destruct (conn_open T conn) eqn:Ho; simpl; [by eauto|].
    specialize (Hgo m0 (lookup_delete_eq _ _) eq_refl eq_refl).
    by destruct (connectToPeer T m0 contact app) as [[m' app'] promise].
  - specialize (Hgo m Hc eq_refl eq_refl).
    by destruct (connectToPeer T m contact app) as [[m' app'] promise].
Qed.

End MoreFacts.

Lemma connect_after_failed_send_witness :
  (connectToPeer anyTransport
     (with_connections staleWithPeer (delete "b2" (connections staleWithPeer)))
     demoContact tt).2 = Pending.
Proof.
  apply (connect_after_failed_send closedTransport anyTransport staleWithPeer demoContact 7
           _ tt {| PeerJS.channels := [] |}); [|done|done].
  unfold sendMessage, staleWithPeer, stale. simpl. by rewrite lookup_insert_eq.
Defined.

Lemma late_close_drops_new_record_witness :
  connections
    (connClose (connectToPeer anyTransport (disconnect staleWithPeer "b2") demoContact tt).1.1
               staleConn) !! "b2" = None.
Proof.
  apply (late_close_drops_new_record anyTransport staleWithPeer demoContact tt staleConn
           {| PeerJS.channels := [] |}); done.
Defined.

End ManagerFacts.

Module SignalingFacts.
Import Signaling Examples.

Lemma delays_succ a :
  (0 ≤ a)%Z → delays (a + 1) = delays a ++ [(reconnectDelay * (a + 1))%Z].
Proof.
  intros Ha. unfold delays.
  replace (Z.to_nat (a + 1)) with (S (Z.to_nat a)) by lia.
  rewrite seq_S, fmap_app. simpl. do 3 f_equal. lia.
Qed.

Lemma attemptReconnect_policy s :
  (0 ≤ reconnectAttempts s ≤ maxReconnectAttempts)%Z →
  scheduled s = delays (reconnectAttempts s) →
  sockets s + length (timers s) = 0 →
  policy (attemptReconnect s).
Proof.
  intros Ha Hs Hz. unfold attemptReconnect, policy.
  destruct (Z.ltb_spec (reconnectAttempts s) maxReconnectAttempts); simpl.
  - rewrite Hs, delays_succ by lia. rewrite length_app. simpl.
    repeat split; lia.
  - repeat split; try lia. done.
Qed.


Lemma create_policy throws : policy (create throws).
Proof.
  destruct throws; [by apply attemptReconnect_policy|].
  unfold policy. simpl. repeat split; done.
Qed.

Lemma fire_policy e s s' : policy s → fire e s = Some s' → policy s'.
Proof.
  intros (Ha & Hs & Hone) Hf. destruct e as [| |i throws]; simpl in Hf.
  - case_decide; simplify_eq. unfold policy, onopen. simpl.
    repeat split; try done; lia.
  - case_decide; simplify_eq. apply attemptReconnect_policy; simpl; try done. lia.
  - destruct (timers s !! i) as [d|] eqn:Hi; simplify_eq.
    apply lookup_lt_Some in Hi.
    assert (length (delete i (timers s)) = 0) as Hlen.
    { rewrite length_delete by (apply lookup_lt_is_Some; lia). lia. }
    destruct throws; simpl.
    + apply attemptReconnect_policy; simpl; try done. lia.
    + unfold policy. simpl. repeat split; try done; lia.
Qed.

Lemma reachable_policy s : reachable s → policy s.
Proof.
  induction 1 as [throws | e s s' _ IH Hf]; [apply create_policy|].
  by eapply fire_policy.
Qed.



Lemma play_reachable es : ∀ s s', reachable s → play es s = Some s' → reachable s'.
Proof.
  unfold play. induction es as [|e es IH] using rev_ind; intros s s' Hr Hp.
  - simpl in Hp. by simplify_eq.
  - rewrite foldl_app in Hp. simpl in Hp.
    destruct (foldl (λ o e0, o ≫= fire e0) (Some s) es) as [s1|] eqn:H1; [|done].
    simpl in Hp. eapply reach_fire; [|done]. by eapply IH.
Qed.


(** ** Further properties of the signaling socket *)

(** X11.  The manager never has two signaling sockets, two pending
    reconnect timers, or a socket and a timer at once: in every reachable
    state at most one of them is outstanding. *)
Theorem single_outstanding s :
  reachable s → sockets s + length (timers s) ≤ 1.
Proof. intros Hr. by destruct (reachable_policy s Hr) as (_ & _ & ?). Qed.

Lemma single_outstanding_witness :
  ∃ s, play fiveFailures (create false) = Some s ∧
       sockets s + length (timers s) ≤ 1.
Proof.
  eexists. split; [reflexivity|].
  apply single_outstanding.
  exact (play_reachable fiveFailures (create false) _ (reach_create false) eq_refl).
Defined.

(** X12.  The budget of attempts is per outage: once the socket has opened,
    however many attempts it took, its next close schedules exactly one
    reconnect, after the base delay of 1000 ms, and counts it as attempt 1. *)
Theorem reopen_restarts_budget s s1 s2 :
  reachable s → fire EvOpen s = Some s1 → fire EvClose s1 = Some s2 →
  reconnectAttempts s2 = 1%Z ∧ scheduled s2 = [reconnectDelay] ∧
  timers s2 = [reconnectDelay] ∧ sockets s2 = 0.
Proof.
  intros Hr Ho Hc. destruct (reachable_policy s Hr) as (_ & _ & Hone).
  simpl in Ho. case_decide as Hs; simplify_eq.
  simpl in Hc. case_decide; simplify_eq.
  assert (timers s = []) as Ht by (apply nil_length_inv; lia).
  unfold onclose, onopen, attemptReconnect. simpl. rewrite Ht. simpl.
  repeat split. lia.
Qed.

Lemma reopen_restarts_budget_witness :
  ∃ s s1 s2, play [EvClose; EvTimer 0 false; EvClose; EvTimer 0 false] (create false) = Some s ∧
             fire EvOpen s = Some s1 ∧ fire EvClose s1 = Some s2 ∧
             scheduled s = [1000; 2000]%Z ∧ scheduled s2 = [1000]%Z.
Proof.
  eexists _, _, _. split; [reflexivity|]. split; [reflexivity|]. split; [reflexivity|].
  split; [reflexivity|].
  eapply (reopen_restarts_budget _ _ _
            (play_reachable [EvClose; EvTimer 0 false; EvClose; EvTimer 0 false]
                            (create false) _ (reach_create false) eq_refl)
            eq_refl eq_refl).
Defined.

End SignalingFacts.

Module ChatWindowFacts.
Import ChatWindow Examples.

Lemma filled_cons_Some x slots : filled (Some x :: slots) = S (filled slots).
Proof. unfold filled. rewrite filter_cons_True by (by eexists). done. Qed.

Lemma filled_cons_None slots : filled (None :: slots) = filled slots.
Proof. unfold filled. rewrite filter_cons_False by (by intros [? ?]). done. Qed.

Lemma filled_le slots : filled slots ≤ length slots.
Proof. apply length_filter. Qed.

Lemma filled_replicate n : filled (replicate n None) = 0.
Proof. induction n as [|n IH]; [done|]. simpl. by rewrite filled_cons_None. Qed.

Lemma filled_insert slots : ∀ i x,
  slots !! i = Some None → filled (<[i := Some x]> slots) = S (filled slots).
Proof.
  induction slots as [|s slots IH]; intros i x Hi; [done|].
  destruct i as [|i]; simpl in *.
  - simplify_eq. by rewrite filled_cons_Some, filled_cons_None.
  - destruct s; rewrite ?filled_cons_Some, ?filled_cons_None; by rewrite IH.
Qed.

Lemma filled_full slots :
  filled slots = length slots →
  ∀ i, i < length slots → ∃ x, slots !! i = Some (Some x).
Proof.
  induction slots as [|s slots IH]; intros Hf i Hi; simpl in *; [lia|].
  destruct s as [x|].
  - rewrite filled_cons_Some in Hf. destruct i as [|i]; simpl; [by eexists|].
    apply IH; lia.
  - rewrite filled_cons_None in Hf. pose proof (filled_le slots). lia.
Qed.

Lemma full_filled slots :
  (∀ i, i < length slots → ∃ x, slots !! i = Some (Some x)) →
  filled slots = length slots.
Proof.
  induction slots as [|s slots IH]; intros Hall; [done|].
  destruct (Hall 0) as [x Hx]; [simpl; lia|]. simpl in Hx. simplify_eq.
  rewrite filled_cons_Some. simpl. f_equal. apply IH.
  intros i Hi. apply (Hall (S i)). simpl. lia.
Qed.

Lemma full_no_null slots :
  filled slots = length slots →
  existsb (λ c, bool_decide (c = None)) slots = false.
Proof.
  induction slots as [|s slots IH]; intros Hf; [done|].
  destruct s as [x|]; simpl.
  - rewrite filled_cons_Some in Hf. simpl in Hf. apply IH. lia.
  - rewrite filled_cons_None in Hf. pose proof (filled_le slots). simpl in Hf. lia.
Qed.

(** [storeChunk] on a slot that already holds bytes changes nothing,
    whatever the duplicate carries. *)
Lemma storeChunk_duplicate fileTransfer i stored chunkData :
  chunks fileTransfer !! i = Some (Some stored) →
  storeChunk fileTransfer (Some i) chunkData = fileTransfer.
Proof. intros H. unfold storeChunk. by rewrite H. Qed.

(** ** The reconstruction loop yields the concatenation of the slots *)

Lemma totalSize_concat (l : list (list Z)) : ∀ a,
  foldl (λ sum chunk, sum + length (default [] chunk)) a (Some <$> l)
  = a + length (concat l).
Proof.
  induction l as [|c l IH]; intros a; simpl; [lia|].
  rewrite IH, length_app. lia.
Qed.

Lemma set_at_fresh (pre c : list Z) k :
  set_at (pre ++ replicate (length c + k) 0%Z) c (length pre)
  = (pre ++ c) ++ replicate k 0%Z.
Proof.
  unfold set_at. rewrite take_app_length.
  rewrite drop_app_add. rewrite drop_replicate.
  replace (length c + k - length c) with k by lia.
  by rewrite app_assoc.
Qed.

Lemma fill_concat (l : list (list Z)) : ∀ pre,
  (foldl (λ '(buf, offset) chunk,
            match chunk with
            | Some c => (set_at buf c offset, offset + length c)
            | None => (buf, offset)
            end)
         (pre ++ replicate (length (concat l)) 0%Z, length pre) (Some <$> l)).1
  = pre ++ concat l.
Proof.
  induction l as [|c l IH]; intros pre; simpl.
  - by rewrite app_nil_r.
  - rewrite length_app, set_at_fresh.
    replace (length pre + length c) with (length (pre ++ c)) by (rewrite length_app; lia).
    rewrite IH. by rewrite app_assoc.
Qed.

Lemma reconstruct_concat (l : list (list Z)) :
  reconstruct (Some <$> l) = concat l.
Proof.
  unfold reconstruct. rewrite totalSize_concat. simpl.
  apply (fill_concat l []).
Qed.

Lemma reconstructions_app out1 out2 :
  reconstructions (out1 ++ out2) = reconstructions out1 ++ reconstructions out2.
Proof. unfold reconstructions. apply omap_app. Qed.


Lemma resume_reconstructions contact st k :
  reconstructions (resume contact st k).2 = [].
Proof. unfold resume. by destruct (suspended st !! k). Qed.

(** ** One transfer: the session of [fileId] under any schedule *)

Section Transfer.
Variable contact : Manager.Contact.
Variable fileId : string.
Variable metaData : Wire.Data.
Variable n : nat.
Variable chunk : nat → Wire.WebRTCMessage.
Hypothesis chunk_ok : ∀ i, i < n → is_chunk fileId i (chunk i).

Local Abbreviation slotBytes := (ChatWindow.slotBytes chunk).
Local Abbreviation only_chunks := (ChatWindow.only_chunks n chunk).
Local Abbreviation session_ok := (ChatWindow.session_ok metaData n chunk).
Local Abbreviation inv := (ChatWindow.inv fileId metaData n chunk).
Local Abbreviation idle := (ChatWindow.idle fileId).

Lemma assembled_slots : assembled n chunk = concat (slotBytes <$> seq 0 n).
Proof. done. Qed.

Lemma chunk_inj i j : i < n → j < n → chunk i = chunk j → i = j.
Proof.
  intros Hi Hj Heq.
  destruct (chunk_ok i Hi) as (_ & _ & Hci).
  destruct (chunk_ok j Hj) as (_ & _ & Hcj).
  rewrite Heq in Hci. congruence.
Qed.

Lemma only_chunks_app ts1 ts2 :
  only_chunks (ts1 ++ ts2) ↔ only_chunks ts1 ∧ only_chunks ts2.
Proof.
  unfold ChatWindow.only_chunks. split.
  - intros H. split; intros m Hm; apply H, elem_of_app; auto.
  - intros [H1 H2] m [Hm|Hm]%elem_of_app; auto.
Qed.

Lemma session_ok_mono seen seen' ft :
  (∀ t, t ∈ seen' → t ∈ seen ∨ ∃ k, t = Resume k) →
  session_ok seen ft → session_ok seen' ft.
Proof.
  intros Hnew (Hm & Hl & Hv & Hs & Hc). repeat split; try done.
  intros i Hi Hin. apply Hs; [done|].
  destruct (Hnew _ Hin) as [?|[k ?]]; [done | discriminate].
Qed.

Lemma session_ok_full seen ft :
  session_ok seen ft → receivedCount ft = length (chunks ft) →
  chunks ft = Some <$> (slotBytes <$> seq 0 n).
Proof.
  intros (Hm & Hl & Hv & Hs & Hc) Hfull.
  apply list_eq. intros i. rewrite !list_lookup_fmap.
  destruct (decide (i < n)) as [Hi|Hi].
  - rewrite lookup_seq_lt by done. simpl.
    destruct (filled_full (chunks ft)) with (i := i) as [x Hx]; [congruence | lia |].
    rewrite Hx. by rewrite (Hv _ _ Hx).
  - rewrite lookup_seq_ge by lia. simpl. apply lookup_ge_None. lia.
Qed.

Lemma session_ok_store seen ft i :
  i < n → session_ok seen ft →
  session_ok (seen ++ [Deliver (chunk i)]) (storeChunk ft (Some i) (slotBytes i)).
Proof.
  intros Hi (Hm & Hl & Hv & Hs & Hc). unfold storeChunk.
  destruct (chunks ft !! i) as [[x|]|] eqn:Hslot.
  - repeat split; try done.
    intros j Hj [Hin|Hin%list_elem_of_singleton]%elem_of_app; [by apply Hs|].
    assert (j = i) as -> by (apply chunk_inj; congruence).
    by rewrite Hslot, (Hv _ _ Hslot).
  - repeat split; simpl.
    + done.
    + by rewrite length_insert.
    + intros j x. rewrite list_lookup_insert by lia.
      case_decide as Hij; [|by apply Hv].
      destruct Hij as [-> _]. congruence.
    + intros j Hj [Hin|Hin%list_elem_of_singleton]%elem_of_app.
      * destruct (decide (j = i)) as [->|Hne].
        -- rewrite (Hs _ Hj Hin) in Hslot. discriminate.
        -- rewrite list_lookup_insert_ne by done. by apply Hs.
      * assert (j = i) as -> by (apply chunk_inj; congruence).
        apply list_lookup_insert_eq. lia.
    + rewrite filled_insert by done. by rewrite Hc.
  - apply lookup_ge_None in Hslot. lia.
Qed.

(** *** The transfer id is a non-empty string *)

Section Truthy.
#[local] Arguments storeChunk : simpl never.
#[local] Arguments reconstruct : simpl never.
Hypothesis fileId_truthy : Js.truthy_string fileId = true.

Lemma inv_deliver seen st rs i :
  i < n → inv seen st rs →
  inv (seen ++ [Deliver (chunk i)]) (onMessage contact st (chunk i)).1
      (rs ++ reconstructions (onMessage contact st (chunk i)).2).
Proof.
  intros Hi (Hall & Hsess & Hgone & Hsusp & Hmime & Hzero).
  destruct (chunk_ok i Hi) as (Hty & Hfid & Hidx).
  unfold ChatWindow.inv, onMessage, suspend, with_fileChunks.
  rewrite Hty, Hfid, fileId_truthy, Hidx.
  change (String.eqb "file" "chat") with false.
  change (String.eqb "file" "file") with true. cbv iota.
  fold (slotBytes i).
  destruct (fileChunks st !! fileId) as [ft0|] eqn:Hlook.
  - (* the session is there *)
    destruct (Hsess ft0 eq_refl) as [Hok0 Hemit0].
    pose proof (session_ok_store seen ft0 i Hi Hok0) as Hok.
    cbv zeta.
    set (ft := storeChunk ft0 (Some i) (slotBytes i)) in *.
    pose proof Hok as (Hm & Hl & Hv & Hs & Hc).
    case_decide as Hfull.
    + rewrite full_no_null by congruence.
      rewrite Hm.
      destruct (Wire.mimeType metaData) as [mimeType|] eqn:Hmt.
      * (* the file is complete and handed on *)
        rewrite (session_ok_full _ _ Hok Hfull), reconstruct_concat.
        rewrite <- assembled_slots. simpl.
        split; [|split; [|split; [|split; [|split]]]].
        -- intros b [Hb|Hb%list_elem_of_singleton]%elem_of_app; [by apply Hall | done].
        -- intros ft'. rewrite lookup_insert_eq. intros ?; simplify_eq.
           split; [done|]. intros _ _ _ Hnil. by apply app_eq_nil in Hnil as [_ ?].
        -- by rewrite lookup_insert_eq.
        -- intros _ _ _ Hnil. by apply app_eq_nil in Hnil as [_ ?].
        -- done.
        -- lia.
      * simpl. rewrite app_nil_r.
        split; [|split; [|split; [|split; [|split]]]]; try done.
        -- intros ft'. rewrite lookup_insert_eq. intros ?; simplify_eq.
           split; [done|]. by intros _ _ [? ?].
        -- by rewrite lookup_insert_eq.
    + simpl. rewrite app_nil_r.
      split; [|split; [|split; [|split; [|split]]]]; try done.
      * intros ft'. rewrite lookup_insert_eq. intros ?; simplify_eq.
        split; [done|]. intros. congruence.
      * by rewrite lookup_insert_eq.
  - (* the session is gone: the envelope is dropped *)
    simpl. rewrite app_nil_r.
    split; [|split; [|split; [|split; [|split]]]]; try done.
    + intros ft'. by rewrite Hlook.
    + intros _. by apply Hgone.
Qed.

Lemma inv_resume seen st rs k :
  inv seen st rs →
  inv (seen ++ [Resume k]) (resume contact st k).1
      (rs ++ reconstructions (resume contact st k).2).
Proof.
  intros (Hall & Hsess & Hgone & Hsusp & Hmime & Hzero).
  rewrite resume_reconstructions, app_nil_r.
  assert (∀ ft, session_ok seen ft → session_ok (seen ++ [Resume k]) ft) as Hmono.
  { intros ft. apply session_ok_mono.
    intros t [?|Ht%list_elem_of_singleton]%elem_of_app; eauto. }
  unfold ChatWindow.inv, resume.
  destruct (suspended st !! k) as [c|] eqn:Hk; simpl.
  - assert (c ∈ suspended st) as Hc by (by eapply list_elem_of_lookup_2).
    split; [done|]. split; [|split; [|split; [|split]]]; try done.
    + intros ft Hft.
      destruct (finished c) as [f|]; [|destruct (Hsess ft Hft); auto].
      rewrite lookup_delete in Hft. case_decide; [done|].
      destruct (Hsess ft Hft); auto.
    + intros Hnone. destruct (finished c) as [f|] eqn:Hf; [|auto].
      rewrite lookup_delete in Hnone. case_decide; [|auto].
      subst f. by apply (Hsusp c).
    + intros c' Hc'. apply Hsusp. by eapply list_elem_of_delete_inv.
  - split; [done|]. split; [|done].
    intros ft Hft. destruct (Hsess ft Hft); auto.
Qed.

Lemma inv_run ts : ∀ seen st rs,
  only_chunks ts → inv seen st rs →
  inv (seen ++ ts) (run contact st ts).1
      (rs ++ reconstructions (run contact st ts).2).
Proof.
  induction ts as [|t ts IH]; intros seen st rs Hts Hinv; simpl.
  - by rewrite !app_nil_r.
  - assert (only_chunks ts) as Hts'.
    { intros m Hm. apply Hts. by right. }
    assert (inv (seen ++ [t]) (turn contact st t).1
                (rs ++ reconstructions (turn contact st t).2)) as Hstep.
    { destruct t as [m|k]; simpl.
      - destruct (Hts m) as (i & Hi & ->); [by left|]. by apply inv_deliver.
      - by apply inv_resume. }
    destruct (turn contact st t) as [st1 out1]. simpl in Hstep.
    specialize (IH _ _ _ Hts' Hstep).
    destruct (run contact st1 ts) as [st2 out2]. simpl in *.
    rewrite reconstructions_app, app_assoc.
    by rewrite <- app_assoc in IH.
Qed.

End Truthy.

(** *** The transfer id is the empty string

    The receiver's test [if (webrtcMessage.data.fileId)] then takes every
    chunk envelope for a metadata envelope: nothing is ever stored in the
    session and nothing is reconstructed, in whatever order. *)

Section Falsy.
Hypothesis fileId_falsy : Js.truthy_string fileId = false.

Lemma idle_run ts : ∀ st rs,
  only_chunks ts → idle st rs →
  idle (run contact st ts).1 (rs ++ reconstructions (run contact st ts).2).
Proof.
  induction ts as [|t ts IH]; intros st rs Hts Hidle; simpl.
  - by rewrite app_nil_r.
  - assert (only_chunks ts) as Hts'.
    { intros m Hm. apply Hts. by right. }
    assert (idle (turn contact st t).1
                 (rs ++ reconstructions (turn contact st t).2)) as Hstep.
    { destruct Hidle as [-> Hzero]. destruct t as [m|k]; simpl.
      - destruct (Hts m) as (i & Hi & ->); [by left|].
        destruct (chunk_ok i Hi) as (Hty & Hfid & Hidx).
        unfold onMessage, with_fileChunks. rewrite Hty, Hfid, fileId_falsy.
        change (String.eqb "file" "chat") with false.
        change (String.eqb "file" "file") with true. simpl.
        split; [done|]. intros ft. simpl. rewrite lookup_insert.
        case_decide; [by intros; simplify_eq | apply Hzero].
      - rewrite resume_reconstructions. split; [done|].
        unfold resume. destruct (suspended st !! k) as [c|]; simpl; [|done].
        destruct (finished c) as [f|]; [|done].
        intros ft. rewrite lookup_delete. case_decide; [done | apply Hzero]. }
    destruct (turn contact st t) as [st1 out1]. simpl in Hstep.
    specialize (IH _ _ Hts' Hstep).
    destruct (run contact st1 ts) as [st2 out2]. simpl in *.
    by rewrite reconstructions_app, app_assoc.
Qed.

End Falsy.

End Transfer.

(** The state right after the metadata envelope. *)
Lemma onMessage_metadata contact st0 metadata n :
  is_metadata n metadata →
  onMessage contact st0 metadata
  = (with_fileChunks st0
       (<[Wire.messageId metadata :=
            {| meta := Wire.data metadata;
               chunks := replicate n None;
               receivedCount := 0 |}]> (fileChunks st0)), []).
Proof.
  intros (Hty & Hfid & Hn). unfold onMessage. rewrite Hty, Hfid, Hn. done.
Qed.

Lemma only_chunks_prefix n chunk ts ts' :
  only_chunks n chunk ts → ts' `prefix_of` ts → only_chunks n chunk ts'.
Proof.
  intros Hts [k ->]. by apply only_chunks_app in Hts as [? _].
Qed.

Lemma in_order_delivers_all n chunk : delivers_all n chunk (in_order n chunk).
Proof.
  unfold in_order. split.
  - intros m (i & Hm & Hi)%list_elem_of_fmap. simplify_eq.
    apply elem_of_seq in Hi. exists i. split; [lia | done].
  - intros i Hi. apply list_elem_of_fmap. exists i. split; [done|].
    apply elem_of_seq. lia.
Qed.

(** What any complete delivery of the chunk envelopes yields. *)
Lemma delivery_outcome contact st0 metadata n chunk ts :
  is_metadata n metadata →
  (∀ c, c ∈ suspended st0 → finished c ≠ Some (Wire.messageId metadata)) →
  (∀ i, i < n → is_chunk (Wire.messageId metadata) i (chunk i)) →
  delivers_all n chunk ts →
  let st1 := (onMessage contact st0 metadata).1 in
  let out := reconstructions (run contact st1 ts).2 in
  (∀ b, b ∈ out → b = assembled n chunk) ∧
  (out ≠ [] ↔ 0 < n ∧ is_Some (Wire.mimeType (Wire.data metadata)) ∧
              Js.truthy_string (Wire.messageId metadata) = true) ∧
  (∀ ts' ft, ts' `prefix_of` ts →
     fileChunks (run contact st1 ts').1 !! Wire.messageId metadata = Some ft →
     receivedCount ft ≤ n).
Proof.
  intros Hmeta Hfresh Hchunk [Honly Hall]. rewrite (onMessage_metadata _ _ _ n) by done.
  simpl. set (fid := Wire.messageId metadata).
  set (st1 := with_fileChunks st0 _).
  destruct (Js.truthy_string fid) eqn:Htruthy.
  - (* the envelopes are taken for chunks *)
    assert (inv fid (Wire.data metadata) n chunk [] st1 []) as Hinit.
    { unfold ChatWindow.inv, st1. simpl. split; [by intros b Hb; apply elem_of_nil in Hb|].
      split; [|split; [|split]]; try done.
      - intros ft. rewrite lookup_insert_eq. intros ?; simplify_eq.
        split; [|simpl; intros; lia].
        repeat split; simpl.
        + by rewrite length_replicate.
        + intros i x [Hx _]%lookup_replicate. done.
        + intros i _ Hin. by apply elem_of_nil in Hin.
        + by rewrite filled_replicate.
      - by rewrite lookup_insert_eq.
      - intros c Hc Hf. by destruct (Hfresh c Hc). }
    assert (∀ ts', only_chunks n chunk ts' →
              inv fid (Wire.data metadata) n chunk ts' (run contact st1 ts').1
                  (reconstructions (run contact st1 ts').2)) as Hrun.
    { intros ts' Hts'.
      apply (inv_run contact fid (Wire.data metadata) n chunk Hchunk Htruthy
                     ts' [] st1 [] Hts' Hinit). }
    destruct (Hrun ts Honly) as (Hval & Hsess & Hgone & _ & Hnomime & Hzero).
    split; [done|]. split.
    + split.
      * intros Hne. repeat split.
        -- destruct n; [by destruct Hne; apply Hzero | lia].
        -- destruct (Wire.mimeType (Wire.data metadata)); [by eexists|].
           by destruct Hne; apply Hnomime.
      * intros (Hn & Hmt & _).
        destruct (fileChunks (run contact st1 ts).1 !! fid) as [ft|] eqn:Hft;
          [|by apply Hgone].
        destruct (Hsess ft eq_refl) as [(Hm & Hl & Hv & Hs & Hc) Hemit].
        apply Hemit; [|done|done].
        rewrite Hc, <- Hl. apply full_filled.
        intros i Hi. exists (slotBytes chunk i). apply Hs; [lia|]. apply Hall. lia.
    + intros ts' ft Hpre Hft.
      destruct (Hrun ts' (only_chunks_prefix _ _ _ _ Honly Hpre)) as (_ & Hsess' & _).
      destruct (Hsess' ft Hft) as [(Hm & Hl & Hv & Hs & Hc) _].
      rewrite Hc, <- Hl. apply filled_le.
  - (* the envelopes are taken for metadata *)
    assert (idle fid st1 []) as Hinit.
    { split; [done|]. intros ft. unfold st1. simpl.
      rewrite lookup_insert_eq. by intros ?; simplify_eq. }
    assert (∀ ts', only_chunks n chunk ts' →
              idle fid (run contact st1 ts').1
                   (reconstructions (run contact st1 ts').2)) as Hrun.
    { intros ts' Hts'.
      apply (idle_run contact fid n chunk Hchunk Htruthy ts' st1 [] Hts' Hinit). }
    destruct (Hrun ts Honly) as [Hnil _]. rewrite Hnil.
    split; [by intros b Hb; apply elem_of_nil in Hb|]. split.
    + split; [done | by intros (_ & _ & ?)].
    + intros ts' ft Hpre Hft.
      destruct (Hrun ts' (only_chunks_prefix _ _ _ _ Honly Hpre)) as [_ Hz].
      rewrite (Hz ft Hft). lia.
Qed.

(** C1.  A session is created from a metadata envelope declaring [n]
    chunks.  Whatever the order in which the [n] chunk envelopes arrive, and
    however often any of them arrives again, the byte sequences
    reconstructed are those of in-order delivery, and each is the slots'
    bytes concatenated in index order; a file is reconstructed exactly when
    there is at least one chunk, the metadata names a MIME type and the
    transfer id is a non-empty string; after every prefix of the delivery
    the session's [receivedCount] is at most [n]; and a chunk for a slot
    that already holds bytes leaves the session as it was, bytes and
    counter. *)
Theorem reassembly_order_independent contact st0 metadata n chunk ts :
  is_metadata n metadata →
  (∀ c, c ∈ suspended st0 → finished c ≠ Some (Wire.messageId metadata)) →
  (∀ i, i < n → is_chunk (Wire.messageId metadata) i (chunk i)) →
  delivers_all n chunk ts →
  let st1 := (onMessage contact st0 metadata).1 in
  let out := reconstructions (run contact st1 ts).2 in
  let ordered := reconstructions (run contact st1 (in_order n chunk)).2 in
  (∀ b, b ∈ out ↔ b ∈ ordered) ∧
  (∀ b, b ∈ out → b = assembled n chunk) ∧
  (out ≠ [] ↔ 0 < n ∧ is_Some (Wire.mimeType (Wire.data metadata)) ∧
              Js.truthy_string (Wire.messageId metadata) = true) ∧
  (∀ ts' ft, ts' `prefix_of` ts →
     fileChunks (run contact st1 ts').1 !! Wire.messageId metadata = Some ft →
     receivedCount ft ≤ n) ∧
  (∀ ft i stored chunkData,
     chunks ft !! i = Some (Some stored) → storeChunk ft (Some i) chunkData = ft).
Proof.
  intros Hmeta Hfresh Hchunk Hts st1 out ordered.
  destruct (delivery_outcome contact st0 metadata n chunk ts
              Hmeta Hfresh Hchunk Hts) as (Hval & Hne & Hcount).
  destruct (delivery_outcome contact st0 metadata n chunk (in_order n chunk)
              Hmeta Hfresh Hchunk (in_order_delivers_all n chunk))
    as (Hval' & Hne' & _).
  fold st1 in Hval, Hne, Hcount, Hval', Hne'. fold out in Hval, Hne.
  fold ordered in Hval', Hne'.
  assert (∀ l l' : list (list Z),
            (∀ b, b ∈ l → b = assembled n chunk) →
            (∀ b, b ∈ l' → b = assembled n chunk) →
            (l ≠ [] → l' ≠ []) → ∀ b, b ∈ l → b ∈ l') as Hsame.
  { intros l l' Hl Hl' Himp b Hb.
    destruct l' as [|b' l']; [destruct Himp; [by intros -> ; apply elem_of_nil in Hb | done]|].
    rewrite (Hl b Hb), <- (Hl' b'); by left. }
  split; [|split; [done|split; [done|split; [done|]]]].
  - intros b. split; apply Hsame; try done.
    + intros H. apply Hne'. by apply Hne.
    + intros H. apply Hne. by apply Hne'.
  - intros ft i stored chunkData. apply storeChunk_duplicate.
Qed.

Lemma demo_delivers_all : delivers_all 4 demoChunk demoTurns.
Proof.
  split.
  - intros m Hm. unfold demoTurns in Hm.
    repeat (apply elem_of_cons in Hm as [Hm|Hm];
            [first [discriminate | simplify_eq; eexists; split; [|reflexivity]; lia]|]).
    by apply elem_of_nil in Hm.
  - intros i Hi. unfold demoTurns.
    destruct i as [|[|[|[|i]]]]; [| | | |lia]; apply list_elem_of_In; simpl; tauto.
Qed.

Lemma reassembly_order_independent_witness :
  reconstructions (run demoContact (onMessage demoContact demoState demoMetadata).1 demoTurns).2
  = [[0; 44; 1; 45; 2; 46; 3; 47]%Z] ∧
  assembled 4 demoChunk = [0; 44; 1; 45; 2; 46; 3; 47]%Z ∧
  (∀ b, b ∈ reconstructions
              (run demoContact (onMessage demoContact demoState demoMetadata).1 demoTurns).2
        ↔ b ∈ reconstructions
              (run demoContact (onMessage demoContact demoState demoMetadata).1
                   (in_order 4 demoChunk)).2).
Proof.
  split; [by vm_compute|]. split; [by vm_compute|].
  apply (reassembly_order_independent demoContact demoState demoMetadata 4 demoChunk demoTurns).
  - repeat split.
  - intros c Hc. by apply elem_of_nil in Hc.
  - intros i _. repeat split.
  - apply demo_delivers_all.
Defined.

(** A duplicate that arrives before the completing call has gone on finds
    the session still in place and complete: nothing is stored, the counter
    stays at 4, and the same bytes are reconstructed a second time. *)
Lemma duplicate_before_resume_reconstructs_again :
  reconstructions
    (run demoContact (onMessage demoContact demoState demoMetadata).1
         demoTurnsEarlyDuplicate).2
  = [assembled 4 demoChunk; assembled 4 demoChunk].
Proof. by vm_compute. Qed.

(** ** Sending *)

Section SendFacts.
Context {App : Type}.

(** C9: a file strictly larger than 10 * 1024 * 1024 bytes is turned away
    before anything is sent or stored: the only effect is the alert, so no
    metadata envelope, no chunk envelope and no chat-message record is
    produced, and the manager is untouched. *)
Theorem oversized_file_rejected (T : Manager.Transport Wire.WebRTCMessage)
    (m : Manager.WebRTCManager Wire.WebRTCMessage App) contact file
    messageId timestamp dataURL isConnected :
  (10 * 1024 * 1024 < size file)%Z →
  handleFileChange T m contact (Some file) messageId timestamp dataURL isConnected
  = (m, [Alert "File too large. Maximum size is 10MB."]) ∧
  produces_nothing
    (handleFileChange T m contact (Some file) messageId timestamp dataURL isConnected).2.
Proof.
  intros Hbig. unfold handleFileChange.
  destruct (Z.ltb_spec maxSize (size file)) as [_|Hle]; [|unfold maxSize in Hle; lia].
  split; [done|]. intros e He. simpl in He.
  apply list_elem_of_singleton in He. by subst e.
Qed.

End SendFacts.

(** A file of 40 KiB goes out as three chunks. *)
Example forty_kib_three_chunks : chunkCount (Z.to_nat 40960) = 3.
Proof. by vm_compute. Qed.

(** A file exactly at the limit is not turned away. *)
Example file_at_limit_accepted :
  (handleFileChange anyTransport connectedManager demoContact
     (Some {| name := "b.bin"; size := 10485760; type := ""; bytes := [] |})
     "m2" 0 "" false).2
  ≠ [Alert "File too large. Maximum size is 10MB."].
Proof. by vm_compute. Qed.

(** What [handleFileChange] sends for a small file, handed to the receiving
    handler, is reconstructed as the file's bytes. *)
Example send_then_receive :
  reconstructions
    (run demoContact demoState
       (omap (λ e, match e with Sent m => Some (Deliver m) | _ => None end)
             (handleFileChange anyTransport connectedManager demoContact
                               (Some smallFile) "m1" 0 "" true).2)).2
  = [[104; 105; 33]%Z].
Proof. by vm_compute. Qed.

Lemma oversized_file_rejected_witness :
  (10 * 1024 * 1024 < size hugeFile)%Z ∧
  handleFileChange anyTransport (Manager.create (App := unit)) demoContact
                   (Some hugeFile) "m1" 0 "" true
  = (Manager.create, [Alert "File too large. Maximum size is 10MB."]).
Proof.
  split; [done|].
  apply (oversized_file_rejected anyTransport Manager.create demoContact hugeFile).
  done.
Defined.

Lemma chunkSize_pos : 0 < chunkSize.
Proof. unfold chunkSize. lia. Qed.

Lemma concat_slices (b : list Z) c k :
  concat ((λ i, slice b (i * c) (Nat.min (i * c + c) (length b))) <$> seq 0 k)
  = take (k * c) b.
Proof.
  induction k as [|k IH]; [done|].
  replace (S k * c) with (k * c + c) by lia.
  rewrite seq_S, fmap_app, concat_app, IH. simpl. rewrite app_nil_r.
  unfold slice. destruct (decide (k * c ≤ length b)) as [Hle|Hgt].
  - replace (Nat.min (k * c + c) (length b) - k * c)
      with (Nat.min c (length b - k * c)) by lia.
    rewrite <- (take_take_drop b (k * c) c). f_equal.
    destruct (decide (c ≤ length b - k * c)) as [Hc|Hc].
    + by rewrite Nat.min_l.
    + rewrite Nat.min_r by lia.
      rewrite !take_ge; [done | rewrite length_drop; lia | rewrite length_drop; lia].
  - replace (Nat.min (k * c + c) (length b) - k * c) with 0 by lia.
    rewrite take_0, app_nil_r. rewrite !take_ge; [done | lia | lia].
Qed.

Lemma ceil_covers len c : 0 < c → len ≤ (len + (c - 1)) / c * c.
Proof.
  intros Hc. pose proof (Nat.div_mod_eq (len + (c - 1)) c) as Hd.
  pose proof (Nat.mod_upper_bound (len + (c - 1)) c ltac:(lia)) as Hm.
  rewrite (Nat.mul_comm _ c). lia.
Qed.

Lemma below_ceil len c i : 0 < c → i < (len + (c - 1)) / c → i * c < len.
Proof.
  intros Hc Hi. pose proof (Nat.div_mod_eq (len + (c - 1)) c) as Hd.
  pose proof (Nat.mod_upper_bound (len + (c - 1)) c ltac:(lia)) as Hm.
  assert (S i * c ≤ (len + (c - 1)) / c * c) as Hle by (apply Nat.mul_le_mono_r; lia).
  rewrite (Nat.mul_comm _ c) in Hle. simpl in Hle. lia.
Qed.

Lemma chunks_nonempty (b : list Z) :
  (chunkCount (length b) = 0 → b = []) ∧ (b = [] → chunkCount (length b) = 0).
Proof.
  pose proof chunkSize_pos as Hpos. unfold chunkCount. split.
  - intros Hz. apply nil_length_inv.
    pose proof (ceil_covers (length b) chunkSize Hpos) as H.
    rewrite Hz in H. simpl in H. lia.
  - intros ->. by vm_compute.
Qed.

Lemma chunkData_concat messageId timestamp arrayBuffer :
  concat ((λ i, Wire.chunkData (Wire.data (chunkEnvelope messageId timestamp arrayBuffer i)))
            <$> seq 0 (chunkCount (length arrayBuffer)))
  = arrayBuffer.
Proof.
  simpl. rewrite concat_slices. apply take_ge. apply ceil_covers, chunkSize_pos.
Qed.

(** X13.  Chunking loses nothing: the chunk envelopes of a buffer carry,
    in index order, exactly the bytes of the buffer; every chunk holds
    between 1 and 16384 bytes; and there is no chunk at all exactly when the
    buffer is empty. *)
Theorem chunks_cover_buffer messageId timestamp arrayBuffer :
  let chunk := chunkEnvelope messageId timestamp arrayBuffer in
  let n := chunkCount (length arrayBuffer) in
  concat ((λ i, Wire.chunkData (Wire.data (chunk i))) <$> seq 0 n) = arrayBuffer ∧
  (∀ i, i < n → 0 < length (Wire.chunkData (Wire.data (chunk i))) ≤ chunkSize) ∧
  (n = 0 ↔ arrayBuffer = []).
Proof.
  pose proof chunkSize_pos as Hpos. simpl. split; [|split].
  - apply (chunkData_concat messageId timestamp).
  - intros i Hi. apply below_ceil in Hi; [|done].
    unfold slice. rewrite length_take, length_drop. lia.
  - split; apply chunks_nonempty.
Qed.

(** ** Further properties of sending and receiving *)

Section SendingFacts.
Context {App : Type}.
Implicit Types (T : Manager.Transport Wire.WebRTCMessage)
               (m : Manager.WebRTCManager Wire.WebRTCMessage App).

Lemma sendMessage_true_same T m peerId message m' :
  Manager.sendMessage T m peerId message = Manager.Normal (true, m') → m' = m.
Proof.
  intros H. destruct (ManagerFacts.sendMessage_cases T m peerId message) as [H'|H'];
    rewrite H' in H; by simplify_eq.
Qed.

Lemma sendChunks_spec T m peerId messageId timestamp buf idx :
  let r := sendChunks T m peerId messageId timestamp buf idx in
  ∃ k, k ≤ length idx ∧
       r.2 = (λ i, Sent (chunkEnvelope messageId timestamp buf i)) <$> take k idx ∧
       (r.1.1 = Some true ↔ k = length idx) ∧
       (r.1.1 = Some true → r.1.2 = m) ∧
       (∀ i, idx !! k = Some i →
          Manager.sendMessage T m peerId (chunkEnvelope messageId timestamp buf i)
          ≠ Manager.Normal (true, m)).
Proof.
  induction idx as [|i rest IH]; simpl.
  - exists 0. repeat split; try done.
  - destruct (Manager.sendMessage T m peerId (chunkEnvelope messageId timestamp buf i))
      as [[[] m']|] eqn:Hs.
    + apply sendMessage_true_same in Hs as Hm. subst m'.
      destruct IH as (k & Hk & Hout & Hall & Hsame & Hfail).
      destruct (sendChunks T m peerId messageId timestamp buf rest) as [[r m''] out].
      simpl in *. exists (S k). simpl. rewrite Hout.
      split; [lia|]. split; [done|]. split; [|split; [done|done]].
      rewrite Hall. lia.
    + exists 0. simpl. split; [lia|]. split; [done|]. split; [done|]. split; [done|].
      intros i' ?; simplify_eq. by rewrite Hs.
    + exists 0. simpl. split; [lia|]. split; [done|]. split; [done|]. split; [done|].
      intros i' ?; simplify_eq. by rewrite Hs.
Qed.

Lemma sentEnvelopes_app out1 out2 :
  sentEnvelopes (out1 ++ out2) = sentEnvelopes out1 ++ sentEnvelopes out2.
Proof. apply omap_app. Qed.

Lemma sentEnvelopes_Sent (l : list Wire.WebRTCMessage) : sentEnvelopes (Sent <$> l) = l.
Proof.
  induction l as [|x l IH]; [done|].
  rewrite fmap_cons. change (sentEnvelopes (Sent x :: (Sent <$> l))) with (x :: sentEnvelopes (Sent <$> l)).
  by rewrite IH.
Qed.

(** X15.  A file message is marked [sent] only when everything went out:
    if [handleFileChange] replaces the message by one of status [sent], the
    connection was ensured, the metadata envelope and then every chunk
    envelope, in index order, were handed to the channel, and the manager is
    as it was. *)
Theorem file_marked_sent_only_if_all_sent T m contact file messageId timestamp dataURL
    isConnected msg :
  let r := handleFileChange T m contact (Some file) messageId timestamp dataURL isConnected in
  let preview := if String.prefix "image/" (type file) then Some dataURL else None in
  ReplaceMessage msg ∈ r.2 → Schema.status msg = "sent" →
  isConnected = true ∧ r.1 = m ∧
  sentEnvelopes r.2
  = metadataEnvelope messageId timestamp file preview
    :: (chunkEnvelope messageId timestamp (bytes file)
          <$> seq 0 (chunkCount (length (bytes file)))).
Proof.
  cbv zeta. unfold handleFileChange.
  destruct (maxSize <? size file)%Z.
  { intros Hin%list_elem_of_singleton. done. }
  set (preview := if String.prefix "image/" (type file) then Some dataURL else None).
  set (message := {| Schema.id := messageId |}).
  destruct isConnected; simpl negb; cbv iota.
  2:{ intros Hin Hst. exfalso. simpl in Hin.
      repeat (apply elem_of_cons in Hin as [Hin|Hin]; [by simplify_eq|]).
      by apply elem_of_nil in Hin. }
  destruct (Manager.sendMessage T m (Manager.peerId contact)
              (metadataEnvelope messageId timestamp file preview)) as [[[] m1]|] eqn:Hmeta.
  - apply sendMessage_true_same in Hmeta as Hm. subst m1.
    pose proof (sendChunks_spec T m (Manager.peerId contact) messageId timestamp (bytes file)
                  (seq 0 (chunkCount (length (bytes file))))) as (k & Hk & Hout & Hall & Hsame & _).
    destruct (sendChunks T m (Manager.peerId contact) messageId timestamp (bytes file)
                (seq 0 (chunkCount (length (bytes file))))) as [[r m2] sent].
    simpl in Hout, Hall, Hsame. destruct r as [ok|].
    + intros Hin Hst. destruct ok.
      * split; [done|]. split; [by apply Hsame|].
        assert (k = length (seq 0 (chunkCount (length (bytes file))))) as -> by by apply Hall.
        rewrite firstn_all in Hout. subst sent. simpl.
        unfold sentEnvelopes. simpl. f_equal. rewrite omap_app. simpl. rewrite app_nil_r.
        rewrite (list_fmap_compose (chunkEnvelope messageId timestamp (bytes file)) Sent).
        apply sentEnvelopes_Sent.
      * exfalso. simpl in Hin.
        apply elem_of_cons in Hin as [Hin|Hin]; [done|].
        apply elem_of_cons in Hin as [Hin|Hin]; [done|].
        apply elem_of_cons in Hin as [Hin|Hin]; [done|].
        apply elem_of_app in Hin as [Hin|Hin].
        -- subst sent. apply list_elem_of_fmap in Hin as (? & ? & ?). done.
        -- repeat (apply elem_of_cons in Hin as [Hin|Hin]; [by simplify_eq|]).
           by apply elem_of_nil in Hin.
    + intros Hin Hst. exfalso. simpl in Hin.
      apply elem_of_cons in Hin as [Hin|Hin]; [done|].
      apply elem_of_cons in Hin as [Hin|Hin]; [done|].
      apply elem_of_cons in Hin as [Hin|Hin]; [done|].
      subst sent. apply list_elem_of_fmap in Hin as (? & ? & ?). done.
  - intros Hin Hst. exfalso. simpl in Hin.
    repeat (apply elem_of_cons in Hin as [Hin|Hin]; [by simplify_eq|]).
    by apply elem_of_nil in Hin.
  - intros Hin Hst. exfalso. simpl in Hin.
    repeat (apply elem_of_cons in Hin as [Hin|Hin]; [by simplify_eq|]).
    by apply elem_of_nil in Hin.
Qed.

End SendingFacts.

Lemma concat_fmap_fmap {A B C} (f : B → C) (g : A → list B) (l : list A) :
  concat ((λ i, f <$> g i) <$> l) = f <$> concat (g <$> l).
Proof.
  induction l as [|x l IH]; [done|].
  rewrite !fmap_cons. cbn [concat]. by rewrite IH, fmap_app.
Qed.

Lemma toUint8_bytes (l : list Z) :
  Forall (λ x, (0 ≤ x < 256)%Z) l → toUint8 <$> l = l.
Proof.
  induction 1 as [|x l Hx _ IH]; [done|]. rewrite fmap_cons, IH. f_equal.
  unfold toUint8. by apply Z.mod_small.
Qed.


(** ** The receiver under any traffic *)

(** What every turn keeps, a run keeps. *)
Lemma run_invariant contact (P : State → Prop) (Q : Effect → Prop) ts :
  (∀ st t, t ∈ ts → P st → P (turn contact st t).1 ∧ Forall Q (turn contact st t).2) →
  ∀ st, P st → P (run contact st ts).1 ∧ Forall Q (run contact st ts).2.
Proof.
  induction ts as [|t ts IH]; intros Hstep st HP; simpl; [done|].
  destruct (Hstep st t) as [HP1 HQ1]; [by left | done |].
  destruct (turn contact st t) as [st1 out1]. simpl in *.
  destruct (IH (λ st' t' Hin, Hstep st' t' (proj2 (elem_of_cons _ _ _) (or_intror Hin)))
              st1 HP1) as [HP2 HQ2].
  destruct (run contact st1 ts) as [st2 out2]. simpl in *.
  split; [done|]. by apply Forall_app.
Qed.

Lemma storeChunk_counted ft i d :
  receivedCount ft = filled (chunks ft) →
  receivedCount (storeChunk ft i d) = filled (chunks (storeChunk ft i d)).
Proof.
  intros Hc. unfold storeChunk. destruct i as [i|]; [|done].
  destruct (chunks ft !! i) as [[x|]|] eqn:Hi; try done.
  simpl. rewrite filled_insert by done. by rewrite Hc.
Qed.

Lemma counted_insert st fileId ft :
  counted st → receivedCount ft = filled (chunks ft) →
  counted (with_fileChunks st (<[fileId := ft]> (fileChunks st))).
Proof.
  intros Hst Hft f ft'. simpl. rewrite lookup_insert. case_decide; [|apply Hst].
  by intros ?; simplify_eq.
Qed.

Lemma counted_delete st fileId :
  counted st → counted (with_fileChunks st (delete fileId (fileChunks st))).
Proof.
  intros Hst f ft'. simpl. rewrite lookup_delete. case_decide; [done | apply Hst].
Qed.

Section AnyTraffic.
#[local] Arguments storeChunk : simpl never.
#[local] Arguments reconstruct : simpl never.

Lemma counted_turn contact st t :
  counted st →
  counted (turn contact st t).1 ∧
  Forall (λ e, ∀ text, e ≠ LogError text) (turn contact st t).2.
Proof.
  intros Hst. destruct t as [m|k]; simpl.
  - unfold onMessage.
    destruct (String.eqb (Wire.type m) "chat").
    { split; [done|]. by repeat constructor. }
    destruct (String.eqb (Wire.type m) "file"); [|by split].
    assert (counted (with_fileChunks st
              (<[Wire.messageId m :=
                   {| meta := Wire.data m;
                      chunks := replicate (default 0 (Wire.chunks (Wire.data m))) None;
                      receivedCount := 0 |}]> (fileChunks st)))) as Hmeta.
    { apply counted_insert; [done|]. simpl. by rewrite filled_replicate. }
    destruct (Wire.fileId (Wire.data m)) as [fileId|]; [|by split].
    destruct (Js.truthy_string fileId); [|by split].
    destruct (fileChunks st !! fileId) as [ft0|] eqn:Hft; [|by split].
    cbv zeta.
    pose proof (storeChunk_counted ft0 (Wire.chunkIndex (Wire.data m))
                  (toUint8 <$> Wire.chunkData (Wire.data m)) (Hst _ _ Hft)) as Hc.
    set (ft := storeChunk ft0 _ _) in *.
    pose proof (counted_insert st fileId ft Hst Hc) as Hst1.
    case_decide as Hfull; [|by split].
    rewrite full_no_null by congruence.
    destruct (Wire.mimeType (meta ft)); [|by split].
    split; [done|]. by repeat constructor.
  - unfold resume. destruct (suspended st !! k) as [c|]; [|by split].
    simpl. split; [|by repeat constructor].
    destruct (finished c) as [f|]; [|done].
    intros f' ft'. simpl. rewrite lookup_delete. case_decide; [done | apply Hst].
Qed.

End AnyTraffic.

(** X17.  Whatever arrives at a chat window, in whatever order, and
    whenever its suspended handler calls go on: in every session
    [receivedCount] is the number of slots that hold bytes, so it never
    exceeds the declared chunk count; and the branch that logs
    [Missing chunks for file] is never taken. *)
Theorem receivedCount_counts_filled_slots contact ts :
  let r := run contact init ts in
  (∀ fileId ft, fileChunks r.1 !! fileId = Some ft →
     receivedCount ft = filled (chunks ft) ∧ receivedCount ft ≤ length (chunks ft)) ∧
  (∀ text, LogError text ∉ r.2).
Proof.
  destruct (run_invariant contact counted (λ e, ∀ text, e ≠ LogError text) ts
              (λ st t _, counted_turn contact st t) init) as [HP HQ].
  { intros f ft. unfold init. simpl. by rewrite lookup_empty. }
  split.
  - intros f ft Hft. rewrite (HP f ft Hft). split; [done | apply filled_le].
  - intros text Hin. rewrite Forall_forall in HQ. by apply (HQ _ Hin text).
Qed.

Lemma filled_hole (slots : list (option (list Z))) j :
  slots !! j = Some None → filled slots < length slots.
Proof.
  revert j. induction slots as [|s slots IH]; intros j Hj; [done|].
  destruct j as [|j]; simpl in *.
  - simplify_eq. rewrite filled_cons_None. pose proof (filled_le slots). lia.
  - specialize (IH j Hj). destruct s; rewrite ?filled_cons_Some, ?filled_cons_None; lia.
Qed.

Section MissingChunk.
#[local] Arguments storeChunk : simpl never.
#[local] Arguments reconstruct : simpl never.
Variable contact : Manager.Contact.
Variable fid : string.
Variable j : nat.

Local Abbreviation waiting := (ChatWindow.waiting fid j).

Lemma storeChunk_waiting ft i d :
  i ≠ Some j →
  chunks ft !! j = Some None ∧ receivedCount ft = filled (chunks ft) →
  chunks (storeChunk ft i d) !! j = Some None ∧
  receivedCount (storeChunk ft i d) = filled (chunks (storeChunk ft i d)).
Proof.
  intros Hi [Hj Hc]. split; [|by apply storeChunk_counted].
  unfold storeChunk. destruct i as [i|]; [|done].
  destruct (chunks ft !! i) as [[x|]|] eqn:Hslot; try done.
  simpl. rewrite list_lookup_insert_ne; [done | congruence].
Qed.

Lemma waiting_turn st t :
  match t with
  | Deliver m => Wire.messageId m ≠ fid ∧ ¬ is_chunk fid j m
  | Resume _ => True
  end →
  waiting st →
  waiting (turn contact st t).1 ∧
  Forall (λ e, ∀ msg, e = SaveMessage msg → Schema.id msg ≠ fid) (turn contact st t).2.
Proof.
  intros Ht Hst. destruct t as [m|k]; simpl.
  - destruct Ht as [Hid Hnot]. unfold onMessage.
    destruct (String.eqb (Wire.type m) "chat").
    { split; [done|]. repeat constructor. intros msg ?; by simplify_eq. }
    destruct (String.eqb_spec (Wire.type m) "file") as [Hty|]; [|by split].
    assert (waiting (with_fileChunks st
              (<[Wire.messageId m :=
                   {| meta := Wire.data m;
                      chunks := replicate (default 0 (Wire.chunks (Wire.data m))) None;
                      receivedCount := 0 |}]> (fileChunks st)))) as Hmeta.
    { intros ft. simpl. rewrite lookup_insert_ne by done. apply Hst. }
    destruct (Wire.fileId (Wire.data m)) as [fileId|] eqn:Hfid; [|by split].
    destruct (Js.truthy_string fileId); [|by split].
    destruct (fileChunks st !! fileId) as [ft0|] eqn:Hft; [|by split].
    cbv zeta. set (ft := storeChunk ft0 _ _).
    destruct (decide (fileId = fid)) as [->|Hne].
    + assert (Wire.chunkIndex (Wire.data m) ≠ Some j) as Hidx.
      { intros Hidx. by apply Hnot. }
      destruct (storeChunk_waiting ft0 (Wire.chunkIndex (Wire.data m))
                  (toUint8 <$> Wire.chunkData (Wire.data m)) Hidx (Hst _ Hft)) as [Hj Hc].
      fold ft in Hj, Hc. pose proof (filled_hole _ _ Hj) as Hlt.
      rewrite decide_False by lia. split; [|done].
      intros ft'. simpl. rewrite lookup_insert_eq. by intros ?; simplify_eq.
    + assert (∀ g, waiting (with_fileChunks st (<[fileId := g]> (fileChunks st)))) as Hother.
      { intros g ft'. simpl. rewrite lookup_insert_ne by done. apply Hst. }
      case_decide; [|split; [apply Hother | done]].
      destruct (existsb _ _).
      { split; [|by repeat constructor].
        intros ft'. simpl. rewrite lookup_delete_ne by done.
        rewrite lookup_insert_ne by done. apply Hst. }
      destruct (Wire.mimeType (meta ft)); [|split; [apply Hother | done]].
      split; [apply Hother|]. repeat constructor. intros msg ?; by simplify_eq.
  - unfold resume. destruct (suspended st !! k) as [c|]; [|by split].
    simpl. split; [|by repeat constructor].
    destruct (finished c) as [f|]; [|done].
    intros ft'. simpl. rewrite lookup_delete. case_decide; [done | apply Hst].
Qed.

End MissingChunk.

(** X18.  Nothing is handed on before every chunk is there: after the
    metadata envelope of a transfer of [n] chunks, as long as chunk [j] has
    not arrived, no message with the transfer's id is given to the store,
    whatever else arrives in the meantime (other chunks, duplicates, other
    transfers, chat messages under other ids). *)
Theorem missing_chunk_never_completes contact st0 metadata n j ts :
  is_metadata n metadata → j < n →
  (∀ m, Deliver m ∈ ts →
     Wire.messageId m ≠ Wire.messageId metadata ∧ ¬ is_chunk (Wire.messageId metadata) j m) →
  let st1 := (onMessage contact st0 metadata).1 in
  ∀ msg, SaveMessage msg ∈ (run contact st1 ts).2 → Schema.id msg ≠ Wire.messageId metadata.
Proof.
  intros Hmeta Hj Hts. rewrite (onMessage_metadata _ _ _ n) by done. simpl.
  set (fid := Wire.messageId metadata). set (st1 := with_fileChunks st0 _).
  destruct (run_invariant contact (waiting fid j)
              (λ e, ∀ msg, e = SaveMessage msg → Schema.id msg ≠ fid) ts) with (st := st1)
    as [_ HQ].
  - intros st t Hin. apply waiting_turn. destruct t as [m|k]; [by apply Hts | done].
  - intros ft. unfold st1. simpl. rewrite lookup_insert_eq. intros ?; simplify_eq. simpl.
    split; [by apply lookup_replicate_2 | by rewrite filled_replicate].
  - intros msg Hin. rewrite Forall_forall in HQ. by apply (HQ _ Hin).
Qed.

(** X16.  Sender and receiver fit together: the chunk envelopes
    [handleFileChange] makes for a file, delivered after its metadata
    envelope in any order and with any repetitions, are reconstructed to the
    bytes of the file and to nothing else; and a file is reconstructed
    exactly when the file is not empty and the message id is not the empty
    string.  (For an empty file no chunk is ever sent, so the receiver never
    shows it.) *)
Theorem sent_file_is_reassembled contact st0 file messageId timestamp preview ts :
  Forall (λ x, (0 ≤ x < 256)%Z) (bytes file) →
  (∀ c, c ∈ suspended st0 → finished c ≠ Some messageId) →
  delivers_all (chunkCount (length (bytes file)))
               (chunkEnvelope messageId timestamp (bytes file)) ts →
  let st1 := (onMessage contact st0 (metadataEnvelope messageId timestamp file preview)).1 in
  let out := reconstructions (run contact st1 ts).2 in
  (∀ b, b ∈ out → b = bytes file) ∧
  (out ≠ [] ↔ bytes file ≠ [] ∧ messageId ≠ "").
Proof.
  intros Hbytes Hfresh Hts.
  destruct (delivery_outcome contact st0 (metadataEnvelope messageId timestamp file preview)
              (chunkCount (length (bytes file)))
              (chunkEnvelope messageId timestamp (bytes file)) ts) as (Hval & Hne & _);
    [done | done | done | done |].
  cbv zeta in *. split.
  - intros b Hb. rewrite (Hval b Hb). unfold assembled.
    rewrite (concat_fmap_fmap toUint8
               (λ i, Wire.chunkData (Wire.data (chunkEnvelope messageId timestamp (bytes file) i)))).
    rewrite chunkData_concat. by apply toUint8_bytes.
  - rewrite Hne. simpl. rewrite JsFacts.truthy_string_spec.
    destruct (chunks_nonempty (bytes file)) as [H1 H2].
    split.
    + intros (Hn & _ & Hid). split; [|done]. intros Hnil. rewrite Hnil in Hn. vm_compute in Hn. lia.
    + intros (Hb & Hid). split; [|split; [by eexists | done]].
      destruct (chunkCount (length (bytes file))) eqn:Hc; [|lia].
      destruct Hb. by apply H1.
Qed.

Section ChatFacts.
Context {App : Type}.
Implicit Types (T : Manager.Transport Wire.WebRTCMessage)
               (m : Manager.WebRTCManager Wire.WebRTCMessage App).

(** X14.  What [handleFileChange] hands to the channel is always either
    nothing, or the metadata envelope followed by the chunk envelopes
    0, 1, ..., k-1 in index order for some k up to the chunk count: no chunk
    goes out before the metadata, none is skipped, and none after the first
    send that fails; nothing is sent for a missing or oversized file or
    without a connection. *)
Theorem file_envelopes_in_order T m contact selected messageId timestamp dataURL isConnected :
  let r := handleFileChange T m contact selected messageId timestamp dataURL isConnected in
  sentEnvelopes r.2 = [] ∨
  ∃ file k, selected = Some file ∧ isConnected = true ∧ (size file ≤ maxSize)%Z ∧
    k ≤ chunkCount (length (bytes file)) ∧
    sentEnvelopes r.2
    = metadataEnvelope messageId timestamp file
        (if String.prefix "image/" (type file) then Some dataURL else None)
      :: (chunkEnvelope messageId timestamp (bytes file) <$> seq 0 k).
Proof.
  cbv zeta. unfold handleFileChange.
  destruct selected as [file|]; [|by left].
  destruct (Z.ltb_spec maxSize (size file)) as [|Hsize]; [by left|].
  set (preview := if String.prefix "image/" (type file) then Some dataURL else None).
  destruct isConnected; simpl negb; cbv iota; [|by left].
  destruct (Manager.sendMessage T m (Manager.peerId contact)
              (metadataEnvelope messageId timestamp file preview)) as [[[] m1]|] eqn:Hmeta;
    [|by left|by left].
  pose proof (sendChunks_spec T m1 (Manager.peerId contact) messageId timestamp (bytes file)
                (seq 0 (chunkCount (length (bytes file))))) as (k & Hk & Hout & _).
  destruct (sendChunks T m1 (Manager.peerId contact) messageId timestamp (bytes file)
              (seq 0 (chunkCount (length (bytes file))))) as [[r m2] sent].
  simpl in Hout. rewrite length_seq in Hk. rewrite take_seq, Nat.min_l in Hout by done.
  right. exists file, k. do 4 (split; [done|]).
  assert (sentEnvelopes sent = chunkEnvelope messageId timestamp (bytes file) <$> seq 0 k) as Hs.
  { subst sent.
    rewrite (list_fmap_compose (chunkEnvelope messageId timestamp (bytes file)) Sent).
    apply sentEnvelopes_Sent. }
  destruct r as [ok|]; simpl.
  - change (sentEnvelopes (AppendMessage ?a :: SaveMessage ?b :: Sent ?c :: ?l))
      with (c :: sentEnvelopes l).
    by rewrite sentEnvelopes_app, Hs, app_nil_r.
  - change (sentEnvelopes (AppendMessage ?a :: SaveMessage ?b :: Sent ?c :: ?l))
      with (c :: sentEnvelopes l).
    by rewrite Hs.
Qed.

(** X19.  A text message: blank text, or a send already under way, does
    nothing at all.  Otherwise an envelope goes to the channel only when the
    message ends up marked [sent]; the manager is then unchanged, and the
    receiving handler turns that envelope into a text message from [them]
    with the same id and timestamp whose content is the trimmed text. *)
Theorem chat_message_round_trip T m contact messageText isSending messageId timestamp
    isConnected receiver st :
  let r := handleSendMessage T m contact messageText isSending messageId timestamp
                             isConnected in
  let received :=
    {| Schema.id := messageId;
       Schema.contactId := Manager.id receiver;
       Schema.content := Some (Js.trim messageText);
       Schema.type := "text";
       Schema.sender := "them";
       Schema.timestamp := timestamp;
       Schema.status := "delivered";
       Schema.fileData := None |} in
  (Js.trim messageText = "" ∨ isSending = true → r = (m, [])) ∧
  (∀ envelope, envelope ∈ sentEnvelopes r.2 →
     Js.trim messageText ≠ "" ∧ r.1 = m ∧
     (∃ msg, ReplaceMessage msg ∈ r.2 ∧ Schema.status msg = "sent") ∧
     onMessage receiver st envelope
     = (suspend st {| receivedMessage := received; finished := None;
                      notice := Some (Js.trim messageText) |},
        [SaveMessage received])).
Proof.
  cbv zeta. unfold handleSendMessage.
  destruct (Js.truthy_string (Js.trim messageText)) eqn:Htr; simpl.
  2:{ split; [done|]. intros e He. by apply elem_of_nil in He. }
  apply JsFacts.truthy_string_spec in Htr.
  destruct isSending; simpl.
  { split; [done|]. intros e He. by apply elem_of_nil in He. }
  split; [by intros [?|?]|].
  destruct isConnected; simpl.
  2:{ intros e He. by apply elem_of_nil in He. }
  destruct (Manager.sendMessage T m (Manager.peerId contact)
              (chatEnvelope messageId timestamp (Js.trim messageText)))
    as [[[] m1]|] eqn:Hs; simpl.
  - apply sendMessage_true_same in Hs. subst m1.
    intros e He. apply list_elem_of_singleton in He. subst e.
    split; [done|]. split; [done|]. split; [|done].
    eexists. split; [apply list_elem_of_In; simpl; do 4 right; left; reflexivity|].
    reflexivity.
  - intros e He. by apply elem_of_nil in He.
  - intros e He. by apply elem_of_nil in He.
Qed.

End ChatFacts.

Lemma file_marked_sent_only_if_all_sent_witness :
  sentEnvelopes (handleFileChange anyTransport connectedManager demoContact
                                  (Some smallFile) "m1" 0 "" true).2
  = [metadataEnvelope "m1" 0 smallFile None;
     chunkEnvelope "m1" 0 (bytes smallFile) 0].
Proof.
  eapply (file_marked_sent_only_if_all_sent anyTransport connectedManager demoContact
            smallFile "m1" 0 "" true).
  - apply list_elem_of_In. vm_compute. do 5 right. left. reflexivity.
  - reflexivity.
Defined.

Lemma missing_chunk_never_completes_witness :
  is_metadata 4 demoMetadata ∧
  ∀ msg, SaveMessage msg ∈
           (run demoContact (onMessage demoContact demoState demoMetadata).1
                [Deliver (demoChunk 0); Deliver (demoChunk 2); Deliver (demoChunk 3);
                 Deliver (demoChunk 0); Resume 0]).2 →
         Schema.id msg ≠ "f1".
Proof.
  split; [by repeat split|].
  apply (missing_chunk_never_completes demoContact demoState demoMetadata 4 1);
    [by repeat split | lia |].
  intros m Hm.
  repeat (apply elem_of_cons in Hm as [Hm|Hm];
          [first [discriminate
                 | simplify_eq; split; [discriminate | intros (_ & _ & ?); discriminate]]|]).
  by apply elem_of_nil in Hm.
Defined.

Lemma sent_file_is_reassembled_witness :
  reconstructions
    (run demoContact (onMessage demoContact demoState (metadataEnvelope "m1" 0 smallFile None)).1
         (in_order (chunkCount (length (bytes smallFile)))
                   (chunkEnvelope "m1" 0 (bytes smallFile)))).2
  ≠ [] ∧
  bytes smallFile = [104; 105; 33]%Z.
Proof.
  split; [|done].
  apply (sent_file_is_reassembled demoContact demoState smallFile "m1" 0 None).
  - repeat constructor; simpl; lia.
  - intros c Hc. by apply elem_of_nil in Hc.
  - apply in_order_delivers_all.
  - split; discriminate.
Defined.

Lemma chat_message_round_trip_witness :
  (onMessage demoContact demoState (chatEnvelope "m7" 3 "hi")).2
  = [SaveMessage {| Schema.id := "m7"; Schema.contactId := "c1";
                    Schema.content := Some "hi"; Schema.type := "text";
                    Schema.sender := "them"; Schema.timestamp := 3;
                    Schema.status := "delivered"; Schema.fileData := None |}].
Proof.
  pose proof (chat_message_round_trip anyTransport connectedManager demoContact "  hi " false
                "m7" 3 true demoContact demoState) as [_ H].
  destruct (H (chatEnvelope "m7" 3 "hi")) as (_ & _ & _ & Heq).
  - apply list_elem_of_In. vm_compute. tauto.
  - by rewrite Heq.
Defined.

End ChatWindowFacts.

Module HandshakeFacts.
Import Handshake Examples.

(** C5, amended: a [contact-info] envelope whose [data.peerId] is truthy
    (a non-empty string, say) and is not the remote id of the channel it
    came in on is turned away: the contact store is as it was, no
    new-contact notification fires and no contacts-changed observer is
    invoked. *)
Theorem spoofed_contact_info_rejected myId observers contacts peerId message nanoid now :
  Js.truthy (Handshake.peerId (data message)) = true →
  Js.strict_ne_string (Handshake.peerId (data message)) peerId = true →
  rejected contacts (onContactInfo myId observers contacts peerId message nanoid now).
Proof.
  intros Htruthy Hne. unfold onContactInfo, rejected.
  destruct (String.eqb (type message) "contact-info"); [|split; [done|]].
  - destruct (String.eqb peerId myId); simpl.
    + split; [done|]. intros e He. apply list_elem_of_singleton in He. by subst e.
    + rewrite Htruthy, Hne. simpl.
      split; [done|]. intros e He. apply list_elem_of_singleton in He. by subst e.
  - intros e He. by apply elem_of_nil in He.
Qed.

Lemma spoofed_contact_info_rejected_witness :
  rejected [] (onContactInfo "me" 1 [] "Y" spoofed "id1" 5).
Proof.
  apply spoofed_contact_info_rejected; reflexivity.
Defined.

Lemma empty_claimed_id_accepted :
  present (Handshake.peerId (data emptyClaim)) ∧
  Js.strict_ne_string (Handshake.peerId (data emptyClaim)) "Y" = true ∧
  onContactInfo "me" 1 [] "Y" emptyClaim "id1" 5
  = ([{| c_id := "id1"; c_peerId := "Y"; c_displayName := "Eve";
         c_status := "online"; c_lastSeen := 5; c_addedAt := 5;
         c_unreadCount := 0 |}],
     [Log "Auto-added contact"; NotifyNewContact "Eve"; ContactsChanged 0]) ∧
  ¬ rejected [] (onContactInfo "me" 1 [] "Y" emptyClaim "id1" 5).
Proof.
  split; [done|]. split; [done|]. split; [by vm_compute|].
  intros [Hstore _]. vm_compute in Hstore. discriminate.
Qed.

(** ** Further properties of the handshake *)

Lemma saveContact_elem contact contacts : contact ∈ saveContact contact contacts.
Proof.
  induction contacts as [|c r IH]; simpl; [by left|].
  destruct (String.compare (c_id c) (c_id contact)); [by left | by right | by left].
Qed.

Lemma saveContact_others contact contacts c :
  c ∈ contacts → c_id c ≠ c_id contact → c ∈ saveContact contact contacts.
Proof.
  induction contacts as [|c' r IH]; simpl; [by intros ?%elem_of_nil|].
  intros [Heq|Hin]%elem_of_cons Hne.
  - subst c'. destruct (String.compare (c_id c) (c_id contact)) eqn:Hcmp.
    + by apply String.compare_eq_iff in Hcmp.
    + by left.
    + right. by left.
  - destruct (String.compare (c_id c') (c_id contact)).
    + by right.
    + right. by apply IH.
    + right. by right.
Qed.

(** A store listed in key order is still in key order after a save. *)
Lemma saveContact_key_ordered contact contacts :
  key_ordered contacts → key_ordered (saveContact contact contacts).
Proof.
  unfold key_ordered. induction 1 as [|c r Hr IH Hhd]; simpl.
  - by repeat constructor.
  - destruct (String.compare (c_id c) (c_id contact)) eqn:Hcmp.
    + apply String.compare_eq_iff in Hcmp. constructor; [done|].
      destruct Hhd as [|c' r' Hlt]; constructor. by rewrite <- Hcmp.
    + constructor; [done|].
      destruct Hhd as [|c' r' Hlt]; simpl; [by constructor|].
      destruct (String.compare (c_id c') (c_id contact)); by constructor.
    + constructor; [by constructor|]. constructor.
      rewrite String.compare_antisym, Hcmp. done.
Qed.

Lemma find_elem {A} (f : A → bool) (l : list A) x : x ∈ l → f x = true → is_Some (find f l).
Proof.
  induction l as [|y l IH]; [by intros ?%elem_of_nil|].
  intros [Heq|Hin]%elem_of_cons Hx; simpl.
  - subst y. rewrite Hx. by eexists.
  - destruct (f y); [by eexists | by apply IH].
Qed.

Local Ltac by_no_notify Hno :=
  let Hin := fresh "Hin" in
  intros Hin; exfalso; eapply Hno; [|exact Hin]; solve [eauto].

Lemma onContactInfo_notifies myId observers contacts peerId message nanoid now
    contactName :
  let r := onContactInfo myId observers contacts peerId message nanoid now in
  NotifyNewContact contactName ∈ r.2 →
  peerId ≠ myId ∧
  (Js.truthy (Handshake.peerId (data message)) = true →
   Handshake.peerId (data message) = Js.VString peerId) ∧
  (∃ name, displayName (data message) = Js.VString name ∧
           contactName = Js.trim name ∧ contactName ≠ "") ∧
  (∀ c, c ∈ contacts → c_peerId c ≠ peerId) ∧
  r.1 = saveContact {| c_id := nanoid; c_peerId := peerId; c_displayName := contactName;
                       c_status := "online"; c_lastSeen := now; c_addedAt := now;
                       c_unreadCount := 0 |} contacts ∧
  r.2 = [Log "Auto-added contact"; NotifyNewContact contactName]
        ++ (ContactsChanged <$> seq 0 observers).
Proof.
  cbv zeta. unfold onContactInfo.
  assert (∀ (l : list Effect), (∀ e, e ∈ l → ∀ n, e ≠ NotifyNewContact n) →
            NotifyNewContact contactName ∈ l → False) as Hno.
  { intros l Hl Hin. by apply (Hl _ Hin contactName). }
  assert (∀ e n, e ∈ [] → e ≠ NotifyNewContact n) as H0 by (by intros e n ?%elem_of_nil).
  assert (∀ t e n, e ∈ [Warn t] → e ≠ NotifyNewContact n) as H1
    by (by intros t e n ->%list_elem_of_singleton).
  assert (∀ t e n, e ∈ [Log t] → e ≠ NotifyNewContact n) as H2
    by (by intros t e n ->%list_elem_of_singleton).
  destruct (String.eqb (type message) "contact-info"); [|by_no_notify Hno].
  destruct (String.eqb_spec peerId myId) as [|Hself]; [by_no_notify Hno|].
  destruct (Js.truthy (Handshake.peerId (data message))) eqn:Htruthy; simpl.
  - destruct (Js.strict_ne_string (Handshake.peerId (data message)) peerId) eqn:Hne; simpl;
      [by_no_notify Hno|].
    assert (Handshake.peerId (data message) = Js.VString peerId) as Hclaimed.
    { destruct (Handshake.peerId (data message)); simpl in Hne; try done.
      apply negb_false_iff in Hne. apply String.eqb_eq in Hne. by subst. }
    destruct (displayName (data message)) as [| | | |name|] eqn:Hname;
      try (by_no_notify Hno).
    destruct (Js.truthy_string name) eqn:Htn; simpl;
      [|by_no_notify Hno].
    destruct (Nat.eqb_spec (String.length (Js.trim name)) 0) as [|Hlen];
      [by_no_notify Hno|].
    destruct (find _ contacts) as [c0|] eqn:Hfind;
      [by_no_notify Hno|].
    intros Hin. simpl in Hin.
    apply elem_of_cons in Hin as [?|Hin]; [done|].
    apply elem_of_cons in Hin as [Heq|Hin].
    2:{ apply list_elem_of_fmap in Hin as (? & ? & ?). done. }
    simplify_eq. split; [done|]. split; [done|].
    split; [exists name; split; [done|]; split; [done|]; intros Hz; by rewrite Hz in Hlen|].
    split; [|done].
    intros c Hc Hp. destruct (find_elem (λ c, String.eqb (c_peerId c) peerId) contacts c Hc)
      as [? Hsome]; [by apply String.eqb_eq|]. congruence.
  - (* the same, the claimed id being falsy *)
    destruct (displayName (data message)) as [| | | |name|] eqn:Hname;
      try (by_no_notify Hno).
    destruct (Js.truthy_string name) eqn:Htn; simpl;
      [|by_no_notify Hno].
    destruct (Nat.eqb_spec (String.length (Js.trim name)) 0) as [|Hlen];
      [by_no_notify Hno|].
    destruct (find _ contacts) as [c0|] eqn:Hfind;
      [by_no_notify Hno|].
    intros Hin. simpl in Hin.
    apply elem_of_cons in Hin as [?|Hin]; [done|].
    apply elem_of_cons in Hin as [Heq|Hin].
    2:{ apply list_elem_of_fmap in Hin as (? & ? & ?). done. }
    simplify_eq. split; [done|]. split; [done|].
    split; [exists name; split; [done|]; split; [done|]; intros Hz; by rewrite Hz in Hlen|].
    split; [|done].
    intros c Hc Hp. destruct (find_elem (λ c, String.eqb (c_peerId c) peerId) contacts c Hc)
      as [? Hsome]; [by apply String.eqb_eq|]. congruence.
Qed.

(** X20.  A contact is auto-added only for the peer the channel really
    belongs to: whenever the handshake callback notifies of a new contact,
    the channel's remote id is not the own id, a claimed id that is truthy
    equals the remote id, the name is the trimmed, non-empty [displayName],
    no stored contact had that remote id, and the stored record carries the
    remote id (never the claimed one) and status [online]; every
    contacts-changed observer runs once, after the notification. *)
Theorem added_contact_is_the_channel_peer myId observers contacts peerId message nanoid now
    contactName :
  let r := onContactInfo myId observers contacts peerId message nanoid now in
  NotifyNewContact contactName ∈ r.2 →
  peerId ≠ myId ∧
  (Js.truthy (Handshake.peerId (data message)) = true →
   Handshake.peerId (data message) = Js.VString peerId) ∧
  (∃ name, displayName (data message) = Js.VString name ∧
           contactName = Js.trim name ∧ contactName ≠ "") ∧
  (∀ c, c ∈ contacts → c_peerId c ≠ peerId) ∧
  r.1 = saveContact {| c_id := nanoid; c_peerId := peerId; c_displayName := contactName;
                       c_status := "online"; c_lastSeen := now; c_addedAt := now;
                       c_unreadCount := 0 |} contacts ∧
  r.2 = [Log "Auto-added contact"; NotifyNewContact contactName]
        ++ (ContactsChanged <$> seq 0 observers).
Proof. apply onContactInfo_notifies. Qed.

Lemma known_peer_is_rejected myId observers contacts peerId message nanoid now :
  (∃ c, c ∈ contacts ∧ c_peerId c = peerId) →
  rejected contacts (onContactInfo myId observers contacts peerId message nanoid now).
Proof.
  intros (c & Hc & Hp). unfold onContactInfo, rejected.
  assert (∀ t, ∀ e, e ∈ [Warn t] → match e with
                                     | NotifyNewContact _ | ContactsChanged _ => False
                                     | _ => True end) as H1
    by (by intros t e ->%list_elem_of_singleton).
  assert (∀ t, ∀ e, e ∈ [Log t] → match e with
                                    | NotifyNewContact _ | ContactsChanged _ => False
                                    | _ => True end) as H2
    by (by intros t e ->%list_elem_of_singleton).
  destruct (String.eqb (type message) "contact-info");
    [|split; [done | by intros e ?%elem_of_nil]].
  destruct (String.eqb peerId myId); [split; [done | first [apply H1 | apply H2]]|].
  destruct (_ && _); [split; [done | first [apply H1 | apply H2]]|].
  destruct (displayName (data message)); try (split; [done | first [apply H1 | apply H2]]).
  destruct (_ || _); [split; [done | first [apply H1 | apply H2]]|].
  destruct (find_elem (λ c, String.eqb (c_peerId c) peerId) contacts c Hc) as [c0 ->];
    [by apply String.eqb_eq|].
  split; [done | first [apply H1 | apply H2]].
Qed.

(** X21.  A peer is auto-added at most once: after a [contact-info]
    envelope that added a contact, every further [contact-info] envelope on
    the channel of the same peer, whatever it carries, is turned away (the
    store is as the first one left it, no notification, no observer runs),
    the callbacks being run one after the other. *)
Theorem contact_is_added_at_most_once myId observers contacts peerId message nanoid now
    contactName observers' message' nanoid' now' :
  let r := onContactInfo myId observers contacts peerId message nanoid now in
  NotifyNewContact contactName ∈ r.2 →
  rejected r.1 (onContactInfo myId observers' r.1 peerId message' nanoid' now').
Proof.
  intros r Hin. apply known_peer_is_rejected.
  destruct (onContactInfo_notifies myId observers contacts peerId message nanoid now
              contactName Hin) as (_ & _ & _ & _ & Hstore & _).
  fold r in Hstore. rewrite Hstore. eexists. split; [apply saveContact_elem | done].
Qed.

Lemma added_contact_is_the_channel_peer_witness :
  (onContactInfo "me" 2 [] "b2" hello "id1" 5).1
  = [{| c_id := "id1"; c_peerId := "b2"; c_displayName := "Bea"; c_status := "online";
        c_lastSeen := 5; c_addedAt := 5; c_unreadCount := 0 |}].
Proof.
  eapply (added_contact_is_the_channel_peer "me" 2 [] "b2" hello "id1" 5 "Bea").
  apply list_elem_of_In. vm_compute. tauto.
Defined.

Lemma contact_is_added_at_most_once_witness :
  rejected (onContactInfo "me" 2 [] "b2" hello "id1" 5).1
           (onContactInfo "me" 2 (onContactInfo "me" 2 [] "b2" hello "id1" 5).1
                          "b2" hello "id2" 9).
Proof.
  apply (contact_is_added_at_most_once "me" 2 [] "b2" hello "id1" 5 "Bea").
  apply list_elem_of_In. vm_compute. tauto.
Defined.

End HandshakeFacts.

Module AddContactFacts.
Import Handshake Examples HandshakeFacts.

Lemma trim_leading_space s : Js.trim (String " " s) = Js.trim s.
Proof. done. Qed.

Lemma cons_ne (a : ascii) s : String a s ≠ s.
Proof.
  intros H. apply (f_equal String.length) in H. simpl in H. lia.
Qed.

(** X22.  The dialog compares the raw input with the own id but stores
    the trimmed input: the own id typed with a leading space passes the
    self-check, and a contact whose [peerId] is the own id is stored. *)
Theorem dialog_self_check_skipped_by_white_space currentUserId contacts displayName nanoid
    lastSeen addedAt :
  Js.trim currentUserId = currentUserId → currentUserId ≠ "" → Js.trim displayName ≠ "" →
  let r := AddContactDialog.handleAddContact currentUserId contacts (String " " currentUserId)
             displayName nanoid lastSeen addedAt false in
  AddContactDialog.ContactAdded ∈ r.2 ∧
  {| c_id := nanoid; c_peerId := currentUserId; c_displayName := Js.trim displayName;
     c_status := "offline"; c_lastSeen := lastSeen; c_addedAt := addedAt;
     c_unreadCount := 0 |} ∈ r.1.
Proof.
  intros Htrim Hne Hname. cbv zeta. unfold AddContactDialog.handleAddContact.
  rewrite trim_leading_space, Htrim.
  apply JsFacts.truthy_string_spec in Hne, Hname. rewrite Hne, Hname. simpl negb. cbv iota.
  simpl orb. cbv iota.
  destruct (String.eqb_spec (String " " currentUserId) currentUserId) as [Heq|_];
    [by apply cons_ne in Heq|].
  simpl. split; [apply list_elem_of_In; simpl; tauto | apply saveContact_elem].
Qed.

Lemma saveContact_inv contact contacts c :
  c ∈ saveContact contact contacts → c = contact ∨ c ∈ contacts.
Proof.
  induction contacts as [|c' r IH]; simpl.
  - intros ->%list_elem_of_singleton. by left.
  - destruct (String.compare (c_id c') (c_id contact)).
    + intros [?|?]%elem_of_cons; [by left | right; by right].
    + intros [?|Hin]%elem_of_cons; [right; subst; by left|].
      destruct (IH Hin); [by left | right; by right].
    + intros [?|?]%elem_of_cons; [by left | by right].
Qed.

(** X23.  What the two add-contact forms put into the store: a record
    that was not there before has the fresh id, status [offline], a
    non-empty [peerId] and the trimmed, non-empty display name.  From the
    dialog its [peerId] is the trimmed input, and the raw input is not the
    own id; from the scanner page its [peerId] is the scanned text, a
    profile exists and the [peerId] is not the profile's id. *)
Theorem added_by_hand_is_never_blank currentUserId profile contacts input displayName nanoid
    lastSeen addedAt save_fails c :
  let d := AddContactDialog.handleAddContact currentUserId contacts input displayName nanoid
             lastSeen addedAt save_fails in
  let q := QRScanner.handleAddContact profile contacts input displayName nanoid
             lastSeen addedAt in
  (c ∈ d.1 → c ∈ contacts ∨
     c_id c = nanoid ∧ c_peerId c = Js.trim input ∧ c_peerId c ≠ "" ∧
     c_displayName c = Js.trim displayName ∧ c_displayName c ≠ "" ∧
     c_status c = "offline" ∧ input ≠ currentUserId) ∧
  (c ∈ q.1 → c ∈ contacts ∨
     c_id c = nanoid ∧ c_peerId c = input ∧ c_peerId c ≠ "" ∧
     c_displayName c = Js.trim displayName ∧ c_displayName c ≠ "" ∧
     c_status c = "offline" ∧ is_Some profile ∧ profile ≠ Some (c_peerId c)).
Proof.
  cbv zeta. split.
  - unfold AddContactDialog.handleAddContact.
    destruct (Js.truthy_string (Js.trim input)) eqn:Hi; simpl; [|by left].
    destruct (Js.truthy_string (Js.trim displayName)) eqn:Hd; simpl; [|by left].
    apply JsFacts.truthy_string_spec in Hi, Hd.
    destruct (String.eqb_spec input currentUserId); [by left|].
    destruct save_fails; [by left|]. simpl.
    intros [->|?]%saveContact_inv; [by right | by left].
  - unfold QRScanner.handleAddContact.
    destruct (Js.truthy_string input) eqn:Hi; simpl; [|by left].
    destruct (Js.truthy_string (Js.trim displayName)) eqn:Hd; simpl; [|by left].
    apply JsFacts.truthy_string_spec in Hi, Hd.
    destruct profile as [profileId|]; [|by left].
    destruct (String.eqb_spec input profileId); [by left|]. simpl.
    intros [->|?]%saveContact_inv; [right | by left]. simpl.
    repeat split; try done. congruence.
Qed.

Lemma dialog_self_check_skipped_by_white_space_witness :
  {| c_id := "id1"; c_peerId := "me"; c_displayName := "Me"; c_status := "offline";
     c_lastSeen := 5; c_addedAt := 6; c_unreadCount := 0 |}
  ∈ (AddContactDialog.handleAddContact "me" [] " me" "Me" "id1" 5 6 false).1.
Proof.
  apply (dialog_self_check_skipped_by_white_space "me" [] "Me" "id1" 5 6); done.
Defined.

Lemma added_by_hand_is_never_blank_witness :
  ∃ c, c ∈ (QRScanner.handleAddContact (Some "me") [] "b2" " Bea " "id1" 5 6).1 ∧
       c_peerId c = "b2" ∧ c_displayName c = "Bea".
Proof.
  exists {| c_id := "id1"; c_peerId := "b2"; c_displayName := "Bea"; c_status := "offline";
            c_lastSeen := 5; c_addedAt := 6; c_unreadCount := 0 |}.
  assert ({| c_id := "id1"; c_peerId := "b2"; c_displayName := "Bea"; c_status := "offline";
             c_lastSeen := 5; c_addedAt := 6; c_unreadCount := 0 |}
          ∈ (QRScanner.handleAddContact (Some "me") [] "b2" " Bea " "id1" 5 6).1) as Hin
    by (apply list_elem_of_In; vm_compute; tauto).
  split; [done|].
  destruct (proj2 (added_by_hand_is_never_blank "me" (Some "me") [] "b2" " Bea " "id1" 5 6
                     false _) Hin) as [Hold|(_ & Hp & _ & Hd & _)];
    [by apply elem_of_nil in Hold | done].
Defined.

End AddContactFacts.

Module RegistrationFacts.
Import Registration.

Lemma spaced_snoc l t :
  spaced l → (∀ t0, last l = Some t0 → (cooldown ≤ t - t0)%Z) → spaced (l ++ [t]).
Proof.
  intros Hl Hlast i t1 t2 H1 H2.
  destruct (decide (S i < length l)) as [Hlt|Hge].
  - rewrite lookup_app_l in H1 by lia. rewrite lookup_app_l in H2 by lia. by eapply Hl.
  - assert (S i = length l) as Hi.
    { apply lookup_lt_Some in H2. rewrite length_app in H2. simpl in H2. lia. }
    rewrite lookup_app_l in H1 by lia.
    rewrite Hi, lookup_app_r in H2 by lia. rewrite Nat.sub_diag in H2. simpl in H2.
    simplify_eq. apply Hlast. rewrite last_lookup. rewrite <- Hi. simpl. done.
Qed.

Lemma tracked_initializePeer now peerId displayName dt pt st :
  tracked st → tracked (initializePeer now peerId displayName dt pt st).
Proof.
  intros [Hsp Hlast]. unfold initializePeer.
  destruct (isReinitializing st); [done|]. simpl.
  destruct (Z.ltb_spec (now - lastReinitTime st) cooldown) as [|Hge]; [done|].
  split; simpl.
  - apply spaced_snoc; [done|]. intros t0 Ht0. rewrite Ht0 in Hlast. by rewrite <- Hlast.
  - by rewrite last_snoc.
Qed.

Lemma tracked_step st e : tracked st → tracked (step st e).1.
Proof.
  intros Ht. destruct e; simpl; try done.
  - by apply tracked_initializePeer.
  - destruct (timers st); [done|]. by apply tracked_initializePeer.
Qed.

Lemma tracked_run es : ∀ st, tracked st → tracked (run st es).
Proof.
  unfold run. induction es as [|e es IH]; intros st Ht; simpl; [done|].
  apply IH. by apply tracked_step.
Qed.

(** X24.  The cooldown holds whatever happens: over any sequence of
    [registerPeer] calls, [Peer] events and reinitialisation timers, with
    any clock readings, two calls of [initializePeer] in a row that get past
    the guard (and so destroy the old [Peer] and create a new one) are at
    least 3000 ms apart, and none happens at a clock reading below 3000. *)
Theorem initializations_are_spaced es :
  spaced (started (run create es)) ∧
  (∀ t, t ∈ started (run create es) → (cooldown ≤ t)%Z).
Proof.
  assert (∀ es st, tracked st → (∀ t, t ∈ started st → (cooldown ≤ t)%Z) →
            ∀ t, t ∈ started (run st es) → (cooldown ≤ t)%Z) as Hlow.
  { clear es. unfold run. induction es as [|e es IH]; intros st Ht Hst; simpl; [done|].
    apply IH; [by apply tracked_step|].
    assert (∀ now p d dt pt st', tracked st' → (∀ t, t ∈ started st' → (cooldown ≤ t)%Z) →
              ∀ t, t ∈ started (initializePeer now p d dt pt st') → (cooldown ≤ t)%Z) as Hinit.
    { intros now p d dt pt st' [Hsp Hl] Hs'. unfold initializePeer.
      destruct (isReinitializing st'); [done|]. simpl.
      destruct (Z.ltb_spec (now - lastReinitTime st') cooldown) as [|Hge]; [done|]. simpl.
      intros t [Hin|Hin%list_elem_of_singleton]%elem_of_app; [by apply Hs'|]. subst t.
      destruct (last (started st')) as [t0|] eqn:Hlast.
      - assert (t0 ∈ started st') as Hin0.
        { rewrite last_lookup in Hlast. by eapply list_elem_of_lookup_2. }
        specialize (Hs' _ Hin0). unfold cooldown in *. lia.
      - unfold cooldown in *. lia. }
    destruct e; simpl; try done.
    - by apply Hinit.
    - destruct (timers st); [done|]. by apply Hinit. }
  assert (tracked create) as H0 by (split; [by intros i t1 t2 ?|done]).
  split; [by apply tracked_run|].
  apply Hlow; [done|]. by intros t ?%elem_of_nil.
Qed.

Lemma peer_events_keep st es :
  Forall peer_event es →
  peer (run st es) = peer st ∧ myPeerId (run st es) = myPeerId st ∧
  lastReinitTime (run st es) = lastReinitTime st ∧ started (run st es) = started st.
Proof.
  unfold run. intros Hes. revert st.
  induction Hes as [|e es He _ IH]; intros st; simpl; [done|].
  destruct (IH (step st e).1) as (H1 & H2 & H3 & H4).
  rewrite H1, H2, H3, H4. by destruct e.
Qed.

(** X25.  A [registerPeer] inside the cooldown changes the recorded
    identity only: if [registerPeer] for [A] created a [Peer] at [t1], a
    [registerPeer] for [B] less than 3000 ms later, whatever [Peer] events
    came in between, records [B] as [myPeerId] and [myDisplayName] but
    creates nothing: the [Peer] is still the one made for [A]. *)
Theorem second_registration_in_cooldown st t1 A dnA dt1 es t2 B dnB dt2 pt2 :
  isReinitializing st = false → (cooldown ≤ t1 - lastReinitTime st)%Z →
  Forall peer_event es → (t2 - t1 < cooldown)%Z →
  let st1 := registerPeer t1 A dnA dt1 false st in
  let st3 := registerPeer t2 B dnB dt2 pt2 (run st1 es) in
  peer st3 = Some {| peer_id := A; captured := dnA |} ∧
  myPeerId st3 = B ∧ myDisplayName st3 = dnB ∧
  started st3 = started st ++ [t1].
Proof.
  intros Hidle Hcool Hes Hsoon. cbv zeta.
  set (st1 := registerPeer t1 A dnA dt1 false st).
  assert (peer st1 = Some {| peer_id := A; captured := dnA |} ∧
          lastReinitTime st1 = t1 ∧ started st1 = started st ++ [t1]) as (Hp & Hl & Hs).
  { unfold st1, registerPeer, initializePeer. simpl. rewrite Hidle. simpl.
    destruct (Z.ltb_spec (t1 - lastReinitTime st) cooldown); [lia | done]. }
  destruct (peer_events_keep st1 es Hes) as (H1 & H2 & H3 & H4).
  set (st2 := run st1 es) in *.
  assert (registerPeer t2 B dnB dt2 pt2 st2 = identify st2 B dnB) as Hskip.
  { unfold registerPeer, initializePeer. simpl. rewrite H3, Hl.
    destruct (Z.ltb_spec (t2 - t1) cooldown); [|lia]. by rewrite orb_true_r. }
  rewrite Hskip. simpl. by rewrite H1, H4, Hp, Hs.
Qed.

Lemma second_registration_in_cooldown_witness :
  myPeerId (registerPeer 9000 "b2" "Bea" false false
              (run (registerPeer 7000 "a1" "Ann" false false create)
                   [EPeerOpen {| peer_id := "a1"; captured := "Ann" |}
                              "a1" true])) = "b2" ∧
  peer (registerPeer 9000 "b2" "Bea" false false
          (run (registerPeer 7000 "a1" "Ann" false false create)
               [EPeerOpen {| peer_id := "a1"; captured := "Ann" |}
                          "a1" true]))
  = Some {| peer_id := "a1"; captured := "Ann" |}.
Proof.
  destruct (second_registration_in_cooldown create 7000 "a1" "Ann" false
              [EPeerOpen {| peer_id := "a1"; captured := "Ann" |} "a1" true]
              9000 "b2" "Bea" false false) as (H1 & H2 & _);
    [done | by vm_compute | by repeat constructor | by vm_compute |].
  by split.
Defined.

End RegistrationFacts.

Module ProviderFacts.
Import Handshake Provider Examples HandshakeFacts.

Section Facts.
Context {Msg : Type}.
Implicit Types (T : Manager.Transport Msg) (m : Manager.WebRTCManager Msg App)
               (app : App) (contact : Contact).

Lemma connectToPeer_statusHandlers T m (c : Manager.Contact) app :
  Manager.statusHandlers (Manager.connectToPeer T m c app).1.1 = Manager.statusHandlers m.
Proof.
  unfold Manager.connectToPeer. case_decide; [done|].
  destruct (Manager.peer m) as [p|]; [|done].
  destruct (Manager.connect_throws T p (Manager.peerId c)); [done|].
  simpl. unfold Manager.setupConnection. by case_decide.
Qed.

Lemma quiet_run (ops : list (Manager.Op Msg App)) : ∀ m app,
  Forall calls_no_status_handler ops → (Manager.run m app ops).2 = app.
Proof.
  unfold Manager.run. induction ops as [|op ops IH]; intros m app Hq; [done|].
  apply Forall_cons in Hq as [Hop Hq]. simpl.
  assert ((Manager.apply m app op).2 = app) as Happ.
  { destruct op; simpl; try done.
    by destruct (Manager.sendMessage _ _ _ _) as [[sent m']|]. }
  destruct (Manager.apply m app op) as [m1 app1]. simpl in *. subst app1. by apply IH.
Qed.

(** X26.  When the manager already holds a record for the peer, the
    provider's [connectToPeer] returns with the promise resolved and the
    status [connecting]: the manager has called no status handler, the
    contact store is untouched and no channel was requested.  The status
    then stays [connecting], and the store as it was, through any later
    operations of the manager other than [connectToPeer] (sends, closes,
    disconnects, incoming connections, a new [Peer], handler
    registrations); what does change it is a status listener: the [open]
    listener of an earlier [connectToPeer] for this contact, when it fires,
    finds the handler just registered and sets [connected]. *)
Theorem already_connected_stays_connecting T m contact app
    (ops : list (Manager.Op Msg App)) :
  is_Some (Manager.connections m !! c_peerId contact) →
  Forall calls_no_status_handler ops →
  let r := connectToPeer T m contact app in
  let later := Manager.run r.1.1 r.1.2 ops in
  r.2 = Manager.Resolved ∧
  connectionStatuses r.1.2 !! c_id contact = Some Manager.connecting ∧
  contacts r.1.2 = contacts app ∧
  Manager.connections r.1.1 = Manager.connections m ∧
  Manager.issued r.1.1 = Manager.issued m ∧
  connectionStatuses later.2 !! c_id contact = Some Manager.connecting ∧
  contacts later.2 = contacts app ∧
  connectionStatuses (Manager.connectOpen r.1.1 (toManager contact) r.1.2) !! c_id contact
  = Some Manager.connected.
Proof.
  intros Hrec Hq. cbv zeta. rewrite quiet_run by done.
  unfold connectToPeer, Manager.connectToPeer. simpl.
  rewrite decide_True by done. simpl.
  unfold Manager.connectOpen, Manager.notifyStatus. simpl.
  rewrite !lookup_insert_eq. simpl. by rewrite lookup_insert_eq.
Qed.

(** X27.  A first connection: with no record for the peer and a [Peer]
    whose [connect] works, the provider's [connectToPeer] leaves the promise
    pending, the status [connecting] and the contact saved as [offline];
    when the channel's [open] listener then runs, the status is [connected]
    and the contact is saved as [online].  The saved records carry the
    fields of the [contact] the caller passed, with [lastSeen] set to the
    clock. *)
Theorem connect_then_open_marks_online T m contact app p :
  Manager.connections m !! c_peerId contact = None → Manager.peer m = Some p →
  Manager.connect_throws T p (c_peerId contact) = false →
  let r := connectToPeer T m contact app in
  let opened := Manager.connectOpen r.1.1 (toManager contact) r.1.2 in
  r.2 = Manager.Pending ∧
  connectionStatuses r.1.2 !! c_id contact = Some Manager.connecting ∧
  updated contact "offline" (clock app) ∈ contacts r.1.2 ∧
  connectionStatuses opened !! c_id contact = Some Manager.connected ∧
  updated contact "online" (clock app) ∈ contacts opened.
Proof.
  intros Hno Hp Hok. unfold connectToPeer.
  set (m1 := Manager.onStatusChange m (c_id contact) (statusHandler contact)).
  set (app1 := set_status app (c_id contact) Manager.connecting).
  destruct (ManagerFacts.connectToPeer_fresh T m1 (toManager contact) app1 p)
    as (H1 & H2 & H3 & H4); [done | done | done |].
  pose proof (connectToPeer_statusHandlers T m1 (toManager contact) app1) as Hh.
  destruct (Manager.connectToPeer T m1 (toManager contact) app1) as [[m2 app2] settled].
  simpl in H1, H2, H3, H4, Hh. subst settled. cbv zeta. simpl.
  assert (app2 = statusHandler contact Manager.connecting app1) as ->.
  { rewrite H4. unfold Manager.notifyStatus, m1. simpl. by rewrite lookup_insert_eq. }
  assert (Manager.connectOpen m2 (toManager contact)
            (statusHandler contact Manager.connecting app1)
          = statusHandler contact Manager.connected
              (statusHandler contact Manager.connecting app1)) as ->.
  { unfold Manager.connectOpen, Manager.notifyStatus. rewrite Hh. unfold m1. simpl.
    by rewrite lookup_insert_eq. }
  unfold statusHandler, save, set_status, app1. simpl.
  rewrite !lookup_insert_eq.
  repeat split; try done; apply saveContact_elem.
Qed.

End Facts.

Lemma find_Some_elem {A} (f : A → bool) (l : list A) x :
  find f l = Some x → x ∈ l ∧ f x = true.
Proof.
  induction l as [|y l IH]; [done|]. simpl.
  destruct (f y) eqn:Hy.
  - intros ?; simplify_eq. split; [by left | done].
  - intros [? ?]%IH. split; [by right | done].
Qed.




Lemma already_connected_stays_connecting_witness :
  connectionStatuses
    (Manager.run (connectToPeer anyTransport linkedManager bea beaApp).1.1
                 (connectToPeer anyTransport linkedManager bea beaApp).1.2
                 [Manager.OpSendMessage closedTransport "b2" 7;
                  Manager.OpConnClose staleConn; Manager.OpInitializePeer]).2 !! "c1"
  = Some Manager.connecting ∧
  connectionStatuses
    (Manager.connectOpen (connectToPeer anyTransport linkedManager bea beaApp).1.1
                         (toManager bea)
                         (connectToPeer anyTransport linkedManager bea beaApp).1.2) !! "c1"
  = Some Manager.connected.
Proof.
  destruct (already_connected_stays_connecting anyTransport linkedManager bea beaApp
              [Manager.OpSendMessage closedTransport "b2" 7;
               Manager.OpConnClose staleConn; Manager.OpInitializePeer])
    as (_ & _ & _ & _ & _ & Hlater & _ & Hopen).
  - by eexists.
  - by repeat constructor.
  - by split.
Defined.

Lemma connect_then_open_marks_online_witness :
  connectionStatuses
    (Manager.connectOpen (connectToPeer anyTransport readyManager bea beaApp).1.1
                         (toManager bea)
                         (connectToPeer anyTransport readyManager bea beaApp).1.2) !! "c1"
  = Some Manager.connected.
Proof.
  apply (connect_then_open_marks_online anyTransport readyManager bea beaApp
           {| PeerJS.channels := [] |}); done.
Defined.


End ProviderFacts.
